(** * Photocard binder: a shallow embedding of [src/App.tsx]

    The development follows the component [App] of [src/App.tsx]: the
    paginated collection [allCards] with its structural updates (batch
    upload, single upload, swap on drag release, removal, page slicing),
    the long-press drag controller with its browser timers, and the
    sequential export loop of [handleGenerateAll].

    Conventions.  A slot [string | null] is an [option string]; the array
    [allCards] is a list read with stdpp's lookup and written with
    stdpp's insert (every write of the source happens after the array has
    been padded, so the write is in range).  JavaScript numbers that can
    be negative are [Z]; array indices produced by the render are [nat].
    Functions of the source that can throw return an [outcome]. *)

From Stdlib Require Import ZArith String List Bool Lia.
From stdpp Require Import base option list.

Import ListNotations.
Local Open Scope nat_scope.

(** ** Values *)

(** An image reference (a data URL). *)
Abbreviation image := string (only parsing).

(** [string | null] *)
Abbreviation slot := (option string) (only parsing).

(** A thrown JavaScript value. *)
Inductive exn : Type :=
| RangeError
| Rejected (reason : string).

Inductive outcome (A : Type) : Type :=
| Returned (a : A)
| Thrown (e : exn).
Arguments Returned {A} a.
Arguments Thrown {A} e.

Definition is_thrown {A} (o : outcome A) : bool :=
  match o with Thrown _ => true | Returned _ => false end.

(** [c !== null] *)
Definition not_null (c : slot) : bool :=
  match c with Some _ => true | None => false end.

Definition ITEMS_PER_PAGE : nat := 9.

(** [Math.ceil(n / d)] on non-negative integers. *)
Definition ceil_div (n d : nat) : nat := (n + (d - 1)) / d.

(** [Math.max(1, Math.ceil(allCards.length / ITEMS_PER_PAGE))] *)
Definition totalPages (allCards : list slot) : nat :=
  Nat.max 1 (ceil_div (length allCards) ITEMS_PER_PAGE).

(** ** Array primitives of the host language *)

(** [Array.prototype.slice(start, end)]: negative arguments count from the
    end, both are clamped to the array. *)
Definition js_slice {A} (l : list A) (start stop : Z) : list A :=
  let len := Z.of_nat (length l) in
  let k := if (start <? 0)%Z then Z.max (len + start) 0 else Z.min start len in
  let final := if (stop <? 0)%Z then Z.max (len + stop) 0 else Z.min stop len in
  take (Z.to_nat (Z.max (final - k) 0)) (drop (Z.to_nat k) l).

(** [Array(n).fill(null)]: the constructor throws a RangeError on a
    negative length. *)
Definition js_Array_fill_null (n : Z) : outcome (list slot) :=
  if (n <? 0)%Z then Thrown RangeError
  else Returned (replicate (Z.to_nat n) None).

(** [updated.splice(start, 1)]: the start is taken from the end when
    negative and clamped; one element is deleted when there is one at the
    clamped start. *)
Definition js_splice1 {A} (l : list A) (start : Z) : list A :=
  let len := Z.of_nat (length l) in
  let actualStart :=
    if (start <? 0)%Z then Z.max (len + start) 0 else Z.min start len in
  delete (Z.to_nat actualStart) l.

(** [updated[i]] for an index inside the array. *)
Definition js_get (updated : list slot) (i : nat) : slot :=
  default None (updated !! i).

(** ** Loops over the collection *)

(** [while (updated.length <= maxIndex) updated.push(null);]
    One unfolding per iteration; [fuel] bounds the number of iterations. *)
Fixpoint push_while (fuel maxIndex : nat) (updated : list slot) : list slot :=
  match fuel with
  | 0 => updated
  | S fuel' =>
      if length updated <=? maxIndex
      then push_while fuel' maxIndex (updated ++ [None])
      else updated
  end.

(** At most [maxIndex + 1] pushes are ever needed. *)
Definition ensure_length (maxIndex : nat) (updated : list slot) : list slot :=
  push_while (S maxIndex) maxIndex updated.

(** [let i = updated.length - 1;
     while (i >= 0 && updated[i] === null) { updated.pop(); i--; }]
    The recursion is on [i + 1]: [0] is [i = -1], where [i >= 0] fails. *)
Fixpoint pop_while (i_plus_1 : nat) (updated : list slot) : list slot :=
  match i_plus_1 with
  | 0 => updated
  | S i =>
      match updated !! i with
      | Some None => pop_while i (removelast updated)
      | _ => updated
      end
  end.

Definition trim_trailing_nulls (updated : list slot) : list slot :=
  pop_while (length updated) updated.

(** ** State updaters of [allCards] *)

(** The updater of [handleBatchUpload]:
    [prev.filter(c => c !== null)] followed by the new photos. *)
Definition batch_update (newPhotos : list image) (prev : list slot) : list slot :=
  let cleanedPrev := List.filter not_null prev in
  cleanedPrev ++ map Some newPhotos.

(** The updater of [handleSingleUploadChange]. *)
Definition single_update (targetIndex : nat) (result : image) (prev : list slot)
  : list slot :=
  let updated := ensure_length targetIndex prev in
  <[targetIndex := Some result]> updated.

(** The updater of [endDrag] (the swap on release). *)
Definition swap_update (sourceGlobalIndex targetGlobalIndex : nat)
  (prev : list slot) : list slot :=
  let maxIndex := Nat.max sourceGlobalIndex targetGlobalIndex in
  let updated := ensure_length maxIndex prev in
  let temp := js_get updated sourceGlobalIndex in
  let updated := <[sourceGlobalIndex := js_get updated targetGlobalIndex]> updated in
  let updated := <[targetGlobalIndex := temp]> updated in
  trim_trailing_nulls updated.

(** The updater of [removeCard]. *)
Definition remove_update (globalIndex : Z) (prev : list slot) : list slot :=
  js_splice1 prev globalIndex.

(** [getCardsForPage]: the slice of the page padded with nulls. *)
Definition getCardsForPage (allCards : list slot) (pageIdx : Z)
  : outcome (list slot) :=
  let startIndex := (pageIdx * Z.of_nat ITEMS_PER_PAGE)%Z in
  let pageCards :=
    js_slice allCards startIndex (startIndex + Z.of_nat ITEMS_PER_PAGE)%Z in
  match js_Array_fill_null
          (Z.of_nat ITEMS_PER_PAGE - Z.of_nat (length pageCards))%Z with
  | Returned fill => Returned (pageCards ++ fill)
  | Thrown e => Thrown e
  end.

(** ** The component state *)

(** An [HTMLDivElement] and an [HTMLCanvasElement], by node identity. *)
Definition element : Type := nat.
Definition canvas : Type := nat.

Record DragState : Type := mkDragState {
  isDragging : bool;
  draggedIndex : option nat;
  draggedData : slot;
  x : Z;
  y : Z
}.

(** The closures handed to [setTimeout]. *)
Inductive callback : Type :=
| LongPress (capturedCards : list slot) (globalIndex : nat) (clientX clientY : Z)
| HitTest (clientX clientY : Z) (sourceGlobalIndex : option nat)
| JumpToPage (newLastPage : nat).

Record timer : Type := mkTimer {
  timer_id : nat;
  timer_delay : nat;
  timer_callback : callback
}.

Inductive notice : Type :=
| StillInitialising
| AddImagesFirst
| ExportFailed.

(** What the component does to the outside, in the order it does it. *)
Inductive effect : Type :=
| Alert (n : notice)
| ConsoleError (e : exn)
| Vibrate (ms : nat)
| Settle (ms : nat)
| Html2canvas (el : element) (scale : nat)
| SetGeneratedImages (images : list image).

(** The [useState] cells, the [useRef] cells, the pending browser timers
    and the effects emitted so far. *)
Record App : Type := mkApp {
  allCards : list slot;
  currentPage : nat;
  isGenerating : bool;
  generatedImages : list image;
  dragState : DragState;
  isPreviewMode : bool;
  touchTimerRef : option nat;
  dragStartPosRef : Z * Z;
  isDraggingRef : bool;
  timers : list timer;
  nextTimerId : nat;
  effects : list effect
}.

(** What the browser provides.  [exportRefs] is [exportRefs.current] as the
    export loop finds it once the settle delay has elapsed (the render of
    the hidden export area fills it, one entry per page);
    [slotAtPoint x y] is the [data-slot-index] of
    [document.elementFromPoint(x, y)?.closest('[data-slot-index]')]. *)
Record host : Type := mkHost {
  html2canvas_loaded : bool;
  html2canvas : element -> outcome canvas;
  toDataURL : canvas -> outcome image;
  exportRefs : list (option element);
  slotAtPoint : Z -> Z -> option nat;
  can_vibrate : bool
}.

Definition idleDrag : DragState :=
  mkDragState false None None 0 0.

(** The state of a freshly mounted component. *)
Definition initialApp : App :=
  mkApp [] 0 false [] idleDrag false None (0%Z, 0%Z) false [] 1 [].

Definition with_allCards (v : list slot) (s : App) : App :=
  mkApp v (currentPage s) (isGenerating s) (generatedImages s) (dragState s)
    (isPreviewMode s) (touchTimerRef s) (dragStartPosRef s) (isDraggingRef s)
    (timers s) (nextTimerId s) (effects s).
Definition with_currentPage (v : nat) (s : App) : App :=
  mkApp (allCards s) v (isGenerating s) (generatedImages s) (dragState s)
    (isPreviewMode s) (touchTimerRef s) (dragStartPosRef s) (isDraggingRef s)
    (timers s) (nextTimerId s) (effects s).
Definition with_isGenerating (v : bool) (s : App) : App :=
  mkApp (allCards s) (currentPage s) v (generatedImages s) (dragState s)
    (isPreviewMode s) (touchTimerRef s) (dragStartPosRef s) (isDraggingRef s)
    (timers s) (nextTimerId s) (effects s).
Definition with_generatedImages (v : list image) (s : App) : App :=
  mkApp (allCards s) (currentPage s) (isGenerating s) v (dragState s)
    (isPreviewMode s) (touchTimerRef s) (dragStartPosRef s) (isDraggingRef s)
    (timers s) (nextTimerId s) (effects s).
Definition with_dragState (v : DragState) (s : App) : App :=
  mkApp (allCards s) (currentPage s) (isGenerating s) (generatedImages s) v
    (isPreviewMode s) (touchTimerRef s) (dragStartPosRef s) (isDraggingRef s)
    (timers s) (nextTimerId s) (effects s).
Definition with_touchTimerRef (v : option nat) (s : App) : App :=
  mkApp (allCards s) (currentPage s) (isGenerating s) (generatedImages s)
    (dragState s) (isPreviewMode s) v (dragStartPosRef s) (isDraggingRef s)
    (timers s) (nextTimerId s) (effects s).
Definition with_dragStartPosRef (v : Z * Z) (s : App) : App :=
  mkApp (allCards s) (currentPage s) (isGenerating s) (generatedImages s)
    (dragState s) (isPreviewMode s) (touchTimerRef s) v (isDraggingRef s)
    (timers s) (nextTimerId s) (effects s).
Definition with_isDraggingRef (v : bool) (s : App) : App :=
  mkApp (allCards s) (currentPage s) (isGenerating s) (generatedImages s)
    (dragState s) (isPreviewMode s) (touchTimerRef s) (dragStartPosRef s) v
    (timers s) (nextTimerId s) (effects s).
Definition with_timers (v : list timer) (s : App) : App :=
  mkApp (allCards s) (currentPage s) (isGenerating s) (generatedImages s)
    (dragState s) (isPreviewMode s) (touchTimerRef s) (dragStartPosRef s)
    (isDraggingRef s) v (nextTimerId s) (effects s).
Definition with_nextTimerId (v : nat) (s : App) : App :=
  mkApp (allCards s) (currentPage s) (isGenerating s) (generatedImages s)
    (dragState s) (isPreviewMode s) (touchTimerRef s) (dragStartPosRef s)
    (isDraggingRef s) (timers s) v (effects s).
Definition with_effects (v : list effect) (s : App) : App :=
  mkApp (allCards s) (currentPage s) (isGenerating s) (generatedImages s)
    (dragState s) (isPreviewMode s) (touchTimerRef s) (dragStartPosRef s)
    (isDraggingRef s) (timers s) (nextTimerId s) v.

(** ** A state and exception monad for the handlers *)

Definition M (A : Type) : Type := App -> outcome A * App.

Definition ret {A} (v : A) : M A := fun s => (Returned v, s).

Definition bind {A B} (c : M A) (k : A -> M B) : M B :=
  fun s =>
    match c s with
    | (Returned v, s') => k v s'
    | (Thrown e, s') => (Thrown e, s')
    end.

Notation "v <- c ;; k" := (bind c (fun v => k))
  (at level 100, c at next level, right associativity).
Notation "c ;; k" := (bind c (fun _ => k))
  (at level 100, right associativity).

Definition get : M App := fun s => (Returned s, s).
Definition modify (f : App -> App) : M unit := fun s => (Returned tt, f s).
Definition throw {A} (e : exn) : M A := fun s => (Thrown e, s).

(** An awaited host call: a rejection is rethrown at the [await]. *)
Definition await {A} (o : outcome A) : M A := fun s => (o, s).

(** [try { body } catch (error) { handler } finally { cleanup }] *)
Definition try_catch_finally (body : M unit) (handler : exn -> M unit)
  (cleanup : M unit) : M unit :=
  fun s =>
    match body s with
    | (Returned _, s') => cleanup s'
    | (Thrown e, s') => (handler e ;; cleanup) s'
    end.

Definition emit (e : effect) : M unit :=
  modify (fun s => with_effects (effects s ++ [e]) s).

(** [setTimeout(cb, delay)] returns the identifier of the new timer. *)
Definition setTimeout (cb : callback) (delay : nat) : M nat :=
  fun s =>
    let id := nextTimerId s in
    (Returned id,
     with_nextTimerId (S id)
       (with_timers (timers s ++ [mkTimer id delay cb]) s)).

(** [clearTimeout(id)] *)
Definition clearTimeout (id : nat) : M unit :=
  modify (fun s =>
    with_timers (List.filter (fun t => negb (timer_id t =? id)) (timers s)) s).

Definition exec {A} (c : M A) (s : App) : App := snd (c s).
Definition result {A} (c : M A) (s : App) : outcome A := fst (c s).

(** ** State setters *)

Definition setAllCards (updater : list slot -> list slot) : M unit :=
  modify (fun s => with_allCards (updater (allCards s)) s).

Definition setCurrentPage (p : nat) : M unit := modify (with_currentPage p).

Definition setIsGenerating (v : bool) : M unit := modify (with_isGenerating v).

Definition setDragState (updater : DragState -> DragState) : M unit :=
  modify (fun s => with_dragState (updater (dragState s)) s).

Definition setGeneratedImages (images : list image) : M unit :=
  emit (SetGeneratedImages images) ;;
  modify (with_generatedImages images).

(** ** Handlers: upload *)

(** [handleBatchUpload], from the point where the files have been read:
    [newPhotos] has one entry per selected file. *)
Definition handleBatchUpload (newPhotos : list image) : M unit :=
  if length newPhotos =? 0 then ret tt
  else
    s <- get ;;
    let updated := batch_update newPhotos (allCards s) in
    let newLastPage :=
      Nat.max 0 (ceil_div (length updated) ITEMS_PER_PAGE - 1) in
    tid <- setTimeout (JumpToPage newLastPage) 100 ;;
    setAllCards (batch_update newPhotos).

(** [handleSingleUploadChange], from the [onload] of the reader. *)
Definition handleSingleUploadChange (targetIndex : nat) (result : image)
  : M unit :=
  setAllCards (single_update targetIndex result).

(** ** Handlers: removal *)

Definition removeCard (indexOnPage : Z) : M unit :=
  s <- get ;;
  let globalIndex :=
    (Z.of_nat (currentPage s) * Z.of_nat ITEMS_PER_PAGE + indexOnPage)%Z in
  let updated := remove_update globalIndex (allCards s) in
  let newTotalPages := totalPages updated in
  (if newTotalPages <=? currentPage s
   then setCurrentPage (newTotalPages - 1) else ret tt) ;;
  setAllCards (remove_update globalIndex).

(** ** Handlers: drag and drop *)

(** [v || null] on an array read: [undefined], [null] and the empty string
    are falsy. *)
Definition or_null (v : option slot) : slot :=
  match v with
  | Some (Some EmptyString) => None
  | Some (Some src) => Some src
  | _ => None
  end.

Definition startDrag (clientX clientY : Z) (indexOnPage : nat) : M unit :=
  s <- get ;;
  modify (with_dragStartPosRef (clientX, clientY)) ;;
  let globalIndex := currentPage s * ITEMS_PER_PAGE + indexOnPage in
  id <- setTimeout (LongPress (allCards s) globalIndex clientX clientY) 400 ;;
  modify (with_touchTimerRef (Some id)).

Definition handleTouchStart (clientX clientY : Z) (indexOnPage : nat) : M unit :=
  s <- get ;;
  if isPreviewMode s then ret tt else startDrag clientX clientY indexOnPage.

Definition handleMouseDown (clientX clientY : Z) (indexOnPage : nat) : M unit :=
  s <- get ;;
  if isPreviewMode s then ret tt else startDrag clientX clientY indexOnPage.

(** [if (touchTimerRef.current) { clearTimeout(...); touchTimerRef.current = null; }] *)
Definition clearTouchTimer : M unit :=
  s <- get ;;
  match touchTimerRef s with
  | Some id => clearTimeout id ;; modify (with_touchTimerRef None)
  | None => ret tt
  end.

Definition moveDrag (clientX clientY : Z) : M unit :=
  s <- get ;;
  if isDraggingRef s then
    setDragState (fun prev =>
      mkDragState (isDragging prev) (draggedIndex prev) (draggedData prev)
        clientX clientY)
  else
    let dx := Z.abs (clientX - fst (dragStartPosRef s)) in
    let dy := Z.abs (clientY - snd (dragStartPosRef s)) in
    if (10 <? dx)%Z || (10 <? dy)%Z then clearTouchTimer else ret tt.

Definition handleTouchMove (clientX clientY : Z) : M unit :=
  s <- get ;;
  if isPreviewMode s then ret tt else moveDrag clientX clientY.

Definition handleMouseMove (clientX clientY : Z) : M unit :=
  s <- get ;;
  if isPreviewMode s then ret tt else moveDrag clientX clientY.

Definition endDrag (clientX clientY : Z) : M unit :=
  s <- get ;;
  if isPreviewMode s then ret tt
  else
    clearTouchTimer ;;
    if isDraggingRef s then
      modify (with_isDraggingRef false) ;;
      setDragState (fun prev =>
        mkDragState false (draggedIndex prev) (draggedData prev)
          (x prev) (y prev)) ;;
      tid <- setTimeout
               (HitTest clientX clientY (draggedIndex (dragState s))) 50 ;;
      ret tt
    else ret tt.

(** The bodies of the three timer closures.  In the hit test the slot
    under the release point carries the [data-slot-index] the render gave
    it, a global index; the fallback [-1] of the source stands for an
    attribute that is missing, which [closest('[data-slot-index]')]
    excludes, so the guard [targetGlobalIndex !== -1] always passes. *)
Definition run_callback (h : host) (cb : callback) : M unit :=
  match cb with
  | LongPress capturedCards globalIndex clientX clientY =>
      modify (with_isDraggingRef true) ;;
      (if can_vibrate h then emit (Vibrate 50) else ret tt) ;;
      setDragState (fun _ =>
        mkDragState true (Some globalIndex)
          (or_null (capturedCards !! globalIndex)) clientX clientY)
  | HitTest clientX clientY source =>
      match slotAtPoint h clientX clientY with
      | Some targetGlobalIndex =>
          match source with
          | Some sourceGlobalIndex =>
              if negb (targetGlobalIndex =? sourceGlobalIndex)
              then setAllCards (swap_update sourceGlobalIndex targetGlobalIndex)
              else ret tt
          | None => ret tt
          end
      | None => ret tt
      end ;;
      setDragState (fun _ => idleDrag)
  | JumpToPage newLastPage => setCurrentPage newLastPage
  end.

(** A pending timer elapses: it leaves the queue and its closure runs.  A
    timer that was cleared is no longer pending and nothing happens. *)
Definition fire (h : host) (id : nat) : M unit :=
  s <- get ;;
  match List.find (fun t => timer_id t =? id) (timers s) with
  | Some t => clearTimeout id ;; run_callback h (timer_callback t)
  | None => ret tt
  end.

(** The listeners of the binder container, as the JSX attaches them.
    [slotIndex] is the [data-slot-index] of the closest slot under the
    pointer, when there is one.  A touch is released on the element it
    began on: [TouchEndOnDelete] is the release of a touch that began on
    the delete button of a slot, whose [onTouchEnd] stops the propagation,
    so that the [onTouchEnd] of the component never sees it; [TouchEnd] is
    the release of any other touch.  The button stops no other event of
    the controller: a press on it is a [TouchStart] or [MouseDown] on its
    slot, and a mouse release over it is a [MouseUp].  Touches on the
    result modal are kept from the component by the modal itself and are
    no events of the controller. *)
Inductive event : Type :=
| TouchStart (slotIndex : option nat) (clientX clientY : Z)
| MouseDown (slotIndex : option nat) (clientX clientY : Z)
| TouchMove (clientX clientY : Z)
| MouseMove (clientX clientY : Z)
| TouchEnd (clientX clientY : Z)
| MouseUp (clientX clientY : Z)
| TimerElapsed (id : nat)
| TouchEndOnDelete (clientX clientY : Z).

Definition step (h : host) (ev : event) : M unit :=
  match ev with
  | TouchStart (Some idx) clientX clientY =>
      handleTouchStart clientX clientY (idx mod 9)
  | MouseDown (Some idx) clientX clientY =>
      handleMouseDown clientX clientY (idx mod 9)
  | TouchStart None _ _ | MouseDown None _ _ => ret tt
  | TouchMove clientX clientY => handleTouchMove clientX clientY
  | MouseMove clientX clientY =>
      s <- get ;;
      if isDraggingRef s then handleMouseMove clientX clientY else ret tt
  | TouchEnd clientX clientY | MouseUp clientX clientY =>
      endDrag clientX clientY
  | TimerElapsed id => fire h id
  | TouchEndOnDelete _ _ => ret tt
  end.

Fixpoint run (h : host) (evs : list event) : M unit :=
  match evs with
  | [] => ret tt
  | ev :: rest => step h ev ;; run h rest
  end.

(** ** Handlers: generation *)

(** [for (let i = 0; i < totalPages; i++) { ... }], one unfolding per
    iteration; [remaining] is [totalPages - i]. *)
Fixpoint export_loop (h : host) (remaining i : nat) (images : list image)
  : M (list image) :=
  match remaining with
  | 0 => ret images
  | S remaining' =>
      match exportRefs h !! i with
      | Some (Some el) =>
          emit (Html2canvas el 2) ;;
          cv <- await (html2canvas h el) ;;
          png <- await (toDataURL h cv) ;;
          export_loop h remaining' (S i) (images ++ [png])
      | _ => export_loop h remaining' (S i) images
      end
  end.

Definition handleGenerateAll (h : host) : M unit :=
  s <- get ;;
  if negb (html2canvas_loaded h) then emit (Alert StillInitialising)
  else if length (allCards s) =? 0 then emit (Alert AddImagesFirst)
  else
    setIsGenerating true ;;
    try_catch_finally
      (emit (Settle 800) ;;
       images <- export_loop h (totalPages (allCards s)) 0 [] ;;
       setGeneratedImages images)
      (fun error => emit (ConsoleError error) ;; emit (Alert ExportFailed))
      (setIsGenerating false).

(** ** Predicates used by the statements *)

(** The last slot, if any, holds an image: the exit condition of the
    trimming loop of [endDrag]. *)
Definition ends_present (cards : list slot) : bool :=
  match last cards with
  | Some None => false
  | _ => true
  end.

(** No empty slot before the last present one. *)
Definition interior_free (cards : list slot) : bool :=
  forallb not_null (trim_trailing_nulls cards).

(** The images of the present slots, in order. *)
Definition present_images (cards : list slot) : list image := omap id cards.

(** The array of [swap_update] between the exchange and the trimming loop,
    when both indices are inside the array. *)
Definition exchanged (i j : nat) (l : list slot) : list slot :=
  <[j := js_get l i]> (<[i := js_get l j]> l).

(** The two awaited steps of one iteration of the export loop:
    [html2canvas(element, ...)] and [canvas.toDataURL(...)]. *)
Definition rasterize (h : host) (el : element) : outcome image :=
  match html2canvas h el with
  | Returned cv => toDataURL h cv
  | Thrown e => Thrown e
  end.

Definition png_of (h : host) (el : element) : option image :=
  match rasterize h el with
  | Returned png => Some png
  | Thrown _ => None
  end.

(** The component when the export loop starts: [isGenerating] is set and
    the 800 ms settle delay has elapsed. *)
Definition settled (s : App) : App :=
  with_effects (effects s ++ [Settle 800]) (with_isGenerating true s).

(** The rasterization request the loop issues for one page. *)
Definition request (el : element) : effect := Html2canvas el 2.

(** The layouts whose rasterization was requested, in the order of the
    requests. *)
Definition requests_of (log : list effect) : list element :=
  omap (fun e => match e with Html2canvas el _ => Some el | _ => None end) log.

(** The layouts one call of [handleGenerateAll] requests. *)
Definition requested (h : host) (s : App) : list element :=
  requests_of
    (drop (length (effects s)) (effects (exec (handleGenerateAll h) s))).

(** Every request but the last was answered with an image: a request
    that is followed by another one had returned before. *)
Definition awaited_in_turn (h : host) (reqs : list element) : Prop :=
  Forall (fun el => is_thrown (rasterize h el) = false) (removelast reqs).

Definition is_set_images (e : effect) : bool :=
  match e with SetGeneratedImages _ => true | _ => false end.

(** Timers other than the two of the drag controller. *)
Definition is_jump (t : timer) : bool :=
  match timer_callback t with JumpToPage _ => true | _ => false end.

Definition is_pointer_down (ev : event) : bool :=
  match ev with TouchStart _ _ _ | MouseDown _ _ _ => true | _ => false end.

(** No gesture in progress: not dragging, no long-press or hit-test timer
    pending. *)
Definition quiescent (s : App) : bool :=
  negb (isDraggingRef s) && forallb is_jump (timers s).

(** [dx > 10 || dy > 10] for a move to [(cx, cy)] after a press at
    [(x0, y0)]. *)
Definition exceeds_threshold (x0 y0 cx cy : Z) : bool :=
  (10 <? Z.abs (cx - x0))%Z || (10 <? Z.abs (cy - y0))%Z.

(** ** Sample data for the worked examples *)

Definition imgA : image := "data:image/png;base64,A"%string.
Definition imgB : image := "data:image/png;base64,B"%string.
Definition imgC : image := "data:image/png;base64,C"%string.

(** A collection with an interior empty slot: a single upload into slot 0
    and one into slot 2 of an empty binder. *)
Definition gapped : list slot := [Some imgA; None; Some imgB].

Definition full20 : list slot := replicate 20 (Some imgA).

Definition nineteen : list slot := replicate 19 (Some imgA).

Definition ten : list slot := replicate 10 (Some imgA).

(** A browser whose rasterizer works on every page layout; page [i] is
    mounted as element [i]. *)
Definition workingHost : host :=
  mkHost true (fun el => Returned el) (fun cv => Returned imgA)
    [Some 0; Some 1; Some 2] (fun _ _ => None) false.

(** The same browser, rasterization failing on the layout of the second
    page. *)
Definition failingHost : host :=
  mkHost true
    (fun el => if el =? 1 then Thrown (Rejected "tainted canvas") else Returned el)
    (fun cv => Returned imgA)
    [Some 0; Some 1; Some 2] (fun _ _ => None) false.

(** A working browser in which the layout of the second page is not
    mounted when the loop reads the refs. *)
Definition unmountedHost : host :=
  mkHost true (fun el => Returned el) (fun cv => Returned imgA)
    [Some 0; None] (fun _ _ => None) false.

(** ** The rest of the component *)

Definition with_isPreviewMode (v : bool) (s : App) : App :=
  mkApp (allCards s) (currentPage s) (isGenerating s) (generatedImages s)
    (dragState s) v (touchTimerRef s) (dragStartPosRef s) (isDraggingRef s)
    (timers s) (nextTimerId s) (effects s).

(** [allCards.some(card => card !== null)] *)
Definition hasPhotos (cards : list slot) : bool := existsb not_null cards.

(** [Boolean(card)], also the test of [cardImage ? ... : ...]: [null] and
    the empty string are falsy. *)
Definition truthy (c : slot) : bool :=
  match c with
  | Some EmptyString => false
  | Some _ => true
  | None => false
  end.

(** [allCards.filter(Boolean).length], the count shown in the header. *)
Definition collectedCount (cards : list slot) : nat :=
  length (List.filter truthy cards).

(** *** Page navigation *)

(** [setCurrentPage(p => Math.max(0, p - 1))] *)
Definition goToPrevPage : M unit :=
  modify (fun s =>
    with_currentPage (Z.to_nat (Z.max 0 (Z.of_nat (currentPage s) - 1))) s).

(** [setCurrentPage(p => Math.min(totalPages - 1, p + 1))]; [totalPages]
    is the one of the render the handler belongs to. *)
Definition goToNextPage : M unit :=
  s0 <- get ;;
  modify (fun s =>
    with_currentPage
      (Z.to_nat (Z.min (Z.of_nat (totalPages (allCards s0)) - 1)
                       (Z.of_nat (currentPage s) + 1))) s).

(** *** The preview overlay *)

Inductive direction : Type :=
| flip_next
| flip_prev.

(** The state cells of the preview: [previewPage], [flipDirection] and the
    ref [touchSwipeStartRef]. *)
Record preview : Type := mkPreview {
  previewPage : nat;
  flipDirection : direction;
  touchSwipeStartRef : option Z
}.

Definition ui : Type := App * preview.

Definition openPreview (u : ui) : ui :=
  let (s, p) := u in
  (with_isPreviewMode true s,
   mkPreview (currentPage s) (flipDirection p) (touchSwipeStartRef p)).

Definition closePreview (u : ui) : ui :=
  let (s, p) := u in
  (with_currentPage (previewPage p) (with_isPreviewMode false s), p).

Definition handlePreviewSwipeStart (clientX : Z) (u : ui) : ui :=
  let (s, p) := u in
  (s, mkPreview (previewPage p) (flipDirection p) (Some clientX)).

(** [if (!touchSwipeStartRef.current) return;] holds for [null] and for a
    start at coordinate [0]; the ref is reset on the other paths only. *)
Definition handlePreviewSwipeEnd (clientX : Z) (u : ui) : ui :=
  let (s, p) := u in
  match touchSwipeStartRef p with
  | None => u
  | Some start =>
      if (start =? 0)%Z then u
      else
        let diff := (start - clientX)%Z in
        let p1 :=
          if (50 <? Z.abs diff)%Z then
            if (0 <? diff)%Z && (previewPage p <? totalPages (allCards s) - 1)
            then mkPreview (previewPage p + 1) flip_next (touchSwipeStartRef p)
            else if (diff <? 0)%Z && (0 <? previewPage p)
            then mkPreview (previewPage p - 1) flip_prev (touchSwipeStartRef p)
            else p
          else p in
        (s, mkPreview (previewPage p1) (flipDirection p1) None)
  end.

(** The two arrows of the overlay; each is rendered only under its
    condition, so a click reaches the handler only then. *)
Definition clickPreviewPrev (u : ui) : ui :=
  let (s, p) := u in
  if 0 <? previewPage p
  then (s, mkPreview (previewPage p - 1) flip_prev (touchSwipeStartRef p))
  else u.

Definition clickPreviewNext (u : ui) : ui :=
  let (s, p) := u in
  if previewPage p <? totalPages (allCards s) - 1
  then (s, mkPreview (previewPage p + 1) flip_next (touchSwipeStartRef p))
  else u.

Inductive preview_event : Type :=
| SwipeStart (clientX : Z)
| SwipeEnd (clientX : Z)
| ArrowPrev
| ArrowNext.

Definition preview_step (ev : preview_event) (u : ui) : ui :=
  match ev with
  | SwipeStart clientX => handlePreviewSwipeStart clientX u
  | SwipeEnd clientX => handlePreviewSwipeEnd clientX u
  | ArrowPrev => clickPreviewPrev u
  | ArrowNext => clickPreviewNext u
  end.

Fixpoint preview_run (evs : list preview_event) (u : ui) : ui :=
  match evs with
  | [] => u
  | ev :: rest => preview_run rest (preview_step ev u)
  end.

(** *** Replacing one slot *)

(** [handleSlotClick], the hidden file input being mounted: [uploadIndex]
    is [fileInputRef.current.dataset.uploadIndex], read back as a number;
    the result is its new value and whether the file dialog was opened. *)
Definition handleSlotClick (indexOnPage : nat) (s : App)
  (uploadIndex : option nat) : option nat * bool :=
  if negb (isDraggingRef s)
  then (Some (currentPage s * ITEMS_PER_PAGE + indexOnPage), true)
  else (uploadIndex, false).

(** The [onChange] of the hidden input, the whole of
    [handleSingleUploadChange]: no file, no update; a missing
    [uploadIndex] reads as ['0']. *)
Definition onSingleFileChosen (uploadIndex : option nat) (file : option image)
  : M unit :=
  match file with
  | None => ret tt
  | Some result => handleSingleUploadChange (default 0 uploadIndex) result
  end.

(** *** The page view *)

(** What [BinderPage] renders for one slot. *)
Record slot_view : Type := mkSlotView {
  data_slot_index : nat;
  isBeingDragged : bool;
  shown_image : slot;
  delete_button : bool;
  upload_hint : bool;
  click_uploads : bool
}.

(** [BinderPage]: [onSlotClick] tells whether the prop is passed. *)
Definition BinderPage (cards : list slot) (pageIndex : nat)
  (isExporting readOnly onSlotClick : bool) (draggedIndex : option nat)
  : list slot_view :=
  imap (fun i cardImage =>
    let currentGlobalIndex := pageIndex * 9 + i in
    let dragged :=
      match draggedIndex with
      | Some d => d =? currentGlobalIndex
      | None => false
      end in
    mkSlotView currentGlobalIndex dragged
      (if truthy cardImage then cardImage else None)
      (truthy cardImage && negb isExporting && negb readOnly && negb dragged)
      (negb (truthy cardImage) && negb readOnly && negb isExporting)
      (negb readOnly && negb isExporting && onSlotClick)) cards.

Definition page_or_empty (o : outcome (list slot)) : list slot :=
  match o with Returned page => page | Thrown _ => [] end.

(** The binder of the main display. *)
Definition mainPage (s : App) : list slot_view :=
  BinderPage
    (page_or_empty (getCardsForPage (allCards s) (Z.of_nat (currentPage s))))
    (currentPage s) false false true (draggedIndex (dragState s)).

(** The pages of the hidden export area:
    [Array.from({ length: totalPages }).map((_, idx) => ...)]. *)
Definition exportPages (cards : list slot) : list (list slot_view) :=
  map (fun idx =>
         BinderPage (page_or_empty (getCardsForPage cards (Z.of_nat idx)))
           idx true false false None)
      (seq 0 (totalPages cards)).

(** *** Sharing *)

Definition blob : Type := nat.

(** [fetch_blob] is [fetch(imgSrc)] followed by [response.blob()];
    [share_supported] is
    [navigator.share && navigator.canShare && navigator.canShare({files})];
    [native_share] is the promise of [navigator.share]. *)
Record share_host : Type := mkShareHost {
  fetch_blob : image -> outcome blob;
  share_supported : bool;
  native_share : blob -> outcome unit
}.

(** [ShareSheet n] and [DownloadClick src n] carry the page ordinal
    [index + 1] of the file name [binder-page-n.png]. *)
Inductive share_effect : Type :=
| ShareSheet (page : nat)
| DownloadClick (href : image) (page : nat)
| ShareConsoleError (e : exn)
| ShareAlert.

Definition is_download (e : share_effect) : bool :=
  match e with DownloadClick _ _ => true | _ => false end.

(** The [try] block of [handleShare]. *)
Definition share_attempt (sh : share_host) (imgSrc : image) (index : nat)
  : outcome unit * list share_effect :=
  match fetch_blob sh imgSrc with
  | Thrown e => (Thrown e, [])
  | Returned file =>
      if share_supported sh then
        match native_share sh file with
        | Returned _ => (Returned tt, [ShareSheet (index + 1)])
        | Thrown e => (Thrown e, [ShareSheet (index + 1)])
        end
      else (Returned tt, [DownloadClick imgSrc (index + 1)])
  end.

Definition handleShare (sh : share_host) (imgSrc : image) (index : nat)
  : outcome unit * list share_effect :=
  match share_attempt sh imgSrc index with
  | (Returned _, log) => (Returned tt, log)
  | (Thrown e, log) =>
      (Returned tt,
       log ++ [ShareConsoleError e; ShareAlert;
               DownloadClick imgSrc (index + 1)])
  end.

(** *** Vocabulary of the further statements *)

(** The structural updates other than removal. *)
Inductive mutation : Type :=
| BatchUpload (newPhotos : list image)
| SingleUpload (targetIndex : nat) (result : image)
| Swap (sourceGlobalIndex targetGlobalIndex : nat).

Definition apply_mutation (m : mutation) (cards : list slot) : list slot :=
  match m with
  | BatchUpload newPhotos => batch_update newPhotos cards
  | SingleUpload targetIndex result => single_update targetIndex result cards
  | Swap i j => swap_update i j cards
  end.

(** Identifiers of pending timers are older than the next one handed out. *)
Definition fresh_timers (s : App) : bool :=
  forallb (fun t => timer_id t <? nextTimerId s) (timers s).

Inductive device : Type :=
| Touch
| Mouse.

Definition pointer_down (d : device) (slotIndex : nat) (cx cy : Z) : event :=
  match d with
  | Touch => TouchStart (Some slotIndex) cx cy
  | Mouse => MouseDown (Some slotIndex) cx cy
  end.

Definition pointer_move (d : device) (p : Z * Z) : event :=
  match d with
  | Touch => TouchMove (fst p) (snd p)
  | Mouse => MouseMove (fst p) (snd p)
  end.

Definition pointer_up (d : device) (cx cy : Z) : event :=
  match d with
  | Touch => TouchEnd cx cy
  | Mouse => MouseUp cx cy
  end.

(** The release of a press: a touch that began on the delete button of a
    slot is released there and is not seen by the component. *)
Definition pointer_release (d : device) (onDeleteButton : bool) (cx cy : Z)
  : event :=
  match d with
  | Touch => if onDeleteButton then TouchEndOnDelete cx cy else TouchEnd cx cy
  | Mouse => MouseUp cx cy
  end.


(** The state of the controller between a press and its release, when no
    timer has elapsed: not dragging, and the only timer that is not a page
    jump is the long press [id0], still referenced unless it was cleared. *)
Definition pressed (id0 : nat) (cards : list slot) (ds : DragState)
  (s : App) : Prop :=
  isDraggingRef s = false
  /\ isPreviewMode s = false
  /\ forallb (fun t => is_jump t || (timer_id t =? id0)) (timers s) = true
  /\ (touchTimerRef s = Some id0 \/ forallb is_jump (timers s) = true)
  /\ allCards s = cards
  /\ dragState s = ds.

(** The state of the controller during a drag started by the long press
    [id] on the slot of global index [g]: [pending] are the other timers. *)
Definition dragging (id g : nat) (cards : list slot) (pending : list timer)
  (s : App) : Prop :=
  isDraggingRef s = true
  /\ isPreviewMode s = false
  /\ timers s = pending
  /\ nextTimerId s = S id
  /\ touchTimerRef s = Some id
  /\ allCards s = cards
  /\ isDragging (dragState s) = true
  /\ draggedIndex (dragState s) = Some g.

(** The mounted layouts among the first [n] entries of the ref array from
    [i] on, in page order. *)
Definition mounted_from (h : host) (i n : nat) : list element :=
  omap id (take n (drop i (exportRefs h))).

(** * Properties *)

(** ** The two loops *)

Lemma push_while_replicate (fuel maxIndex : nat) (updated : list slot) :
  S maxIndex - length updated <= fuel ->
  push_while fuel maxIndex updated
  = updated ++ replicate (S maxIndex - length updated) None.
Proof.
  revert updated. induction fuel as [|fuel IH]; intros updated Hfuel; simpl.
  - replace (S maxIndex - length updated) with 0 by lia.
    simpl. now rewrite app_nil_r.
  - destruct (Nat.leb_spec (length updated) maxIndex) as [Hle|Hgt].
    + rewrite IH by (rewrite length_app; simpl; lia).
      rewrite length_app. simpl.
      replace (S maxIndex - length updated)
        with (S (maxIndex - length updated)) by lia.
      replace (S maxIndex - (length updated + 1))
        with (maxIndex - length updated) by lia.
      simpl. now rewrite <- app_assoc.
    + replace (S maxIndex - length updated) with 0 by lia.
      simpl. now rewrite app_nil_r.
Qed.

Lemma ensure_length_replicate (maxIndex : nat) (updated : list slot) :
  ensure_length maxIndex updated
  = updated ++ replicate (S maxIndex - length updated) None.
Proof. unfold ensure_length. apply push_while_replicate. lia. Qed.

(** The padding loop leaves through its condition, not through its fuel. *)
Lemma ensure_length_exits (maxIndex : nat) (updated : list slot) :
  maxIndex < length (ensure_length maxIndex updated).
Proof.
  rewrite ensure_length_replicate, length_app, length_replicate. lia.
Qed.

Lemma js_get_ensure_length (maxIndex k : nat) (updated : list slot) :
  js_get (ensure_length maxIndex updated) k = js_get updated k.
Proof.
  rewrite ensure_length_replicate. unfold js_get.
  destruct (Nat.lt_ge_cases k (length updated)) as [Hlt|Hge].
  - now rewrite lookup_app_l.
  - rewrite lookup_app_r by lia.
    rewrite (lookup_ge_None_2 updated k) by lia.
    destruct (replicate _ _ !! _) as [c|] eqn:E; [|reflexivity].
    apply lookup_replicate in E. destruct E as [-> _]. reflexivity.
Qed.

Lemma trim_nil : trim_trailing_nulls [] = [].
Proof. reflexivity. Qed.

Lemma trim_snoc_null (l : list slot) :
  trim_trailing_nulls (l ++ [None]) = trim_trailing_nulls l.
Proof.
  unfold trim_trailing_nulls. rewrite length_app. simpl.
  rewrite Nat.add_1_r. simpl.
  rewrite lookup_app_r by lia. rewrite Nat.sub_diag. simpl.
  now rewrite removelast_last.
Qed.

Lemma trim_snoc_image (l : list slot) (v : image) :
  trim_trailing_nulls (l ++ [Some v]) = l ++ [Some v].
Proof.
  unfold trim_trailing_nulls. rewrite length_app. simpl.
  rewrite Nat.add_1_r. simpl.
  rewrite lookup_app_r by lia. rewrite Nat.sub_diag. reflexivity.
Qed.

Lemma ends_present_snoc (l : list slot) (c : slot) :
  ends_present (l ++ [c]) = not_null c.
Proof. unfold ends_present. rewrite last_snoc. now destruct c. Qed.

Lemma trim_ends_present (l : list slot) :
  ends_present (trim_trailing_nulls l) = true.
Proof.
  induction l as [|c l IH] using rev_ind; [reflexivity|].
  destruct c as [v|].
  - now rewrite trim_snoc_image, ends_present_snoc.
  - now rewrite trim_snoc_null.
Qed.

Lemma trim_fixed (l : list slot) :
  ends_present l = true -> trim_trailing_nulls l = l.
Proof.
  destruct l as [|c l _] using rev_ind; [reflexivity|].
  rewrite ends_present_snoc. destruct c as [v|]; [|discriminate].
  intros _. apply trim_snoc_image.
Qed.

Lemma trim_idempotent (l : list slot) :
  trim_trailing_nulls (trim_trailing_nulls l) = trim_trailing_nulls l.
Proof. apply trim_fixed, trim_ends_present. Qed.

Lemma js_get_snoc_null (l : list slot) (k : nat) :
  js_get (l ++ [None]) k = js_get l k.
Proof.
  unfold js_get.
  destruct (Nat.lt_ge_cases k (length l)) as [Hlt|Hge].
  - now rewrite lookup_app_l.
  - rewrite (lookup_ge_None_2 l k) by lia.
    rewrite lookup_app_r by lia.
    now destruct (k - length l) as [|[|m]].
Qed.

Lemma js_get_trim (l : list slot) (k : nat) :
  js_get (trim_trailing_nulls l) k = js_get l k.
Proof.
  induction l as [|c l IH] using rev_ind; [reflexivity|].
  destruct c as [v|].
  - now rewrite trim_snoc_image.
  - now rewrite trim_snoc_null, js_get_snoc_null.
Qed.

Lemma trim_length_le (l : list slot) :
  length (trim_trailing_nulls l) <= length l.
Proof.
  induction l as [|c l IH] using rev_ind; [reflexivity|].
  destruct c as [v|].
  - now rewrite trim_snoc_image.
  - rewrite trim_snoc_null, length_app. simpl. lia.
Qed.

Lemma trim_prefix (l : list slot) (k : nat) :
  k < length (trim_trailing_nulls l) -> trim_trailing_nulls l !! k = l !! k.
Proof.
  induction l as [|c l IH] using rev_ind; [reflexivity|].
  destruct c as [v|].
  - now rewrite trim_snoc_image.
  - rewrite trim_snoc_null. intros Hk. rewrite IH by exact Hk.
    pose proof (trim_length_le l). now rewrite lookup_app_l by lia.
Qed.

(** A trimmed array is determined by what its reads return. *)
Lemma ends_present_last_image (l : list slot) :
  ends_present l = true -> l <> [] ->
  exists v, l !! (length l - 1) = Some (Some v).
Proof.
  destruct l as [|c l _] using rev_ind; [congruence|].
  rewrite ends_present_snoc. destruct c as [v|]; [|discriminate].
  intros _ _. exists v. rewrite length_app. simpl.
  rewrite lookup_app_r by lia.
  replace (length l + 1 - 1 - length l) with 0 by lia. reflexivity.
Qed.

Lemma trimmed_length_le (l1 l2 : list slot) :
  ends_present l1 = true ->
  (forall k, js_get l1 k = js_get l2 k) ->
  length l1 <= length l2.
Proof.
  intros H1 Hget.
  destruct (Nat.le_gt_cases (length l1) (length l2)) as [Hle|Hgt]; [exact Hle|].
  destruct (ends_present_last_image l1 H1) as [v Hv].
  { destruct l1; simpl in *; [lia|congruence]. }
  specialize (Hget (length l1 - 1)). unfold js_get in Hget.
  rewrite Hv in Hget. rewrite (lookup_ge_None_2 l2) in Hget by lia.
  discriminate.
Qed.

Lemma trimmed_ext (l1 l2 : list slot) :
  ends_present l1 = true -> ends_present l2 = true ->
  (forall k, js_get l1 k = js_get l2 k) ->
  l1 = l2.
Proof.
  intros H1 H2 Hget.
  assert (Hlen : length l1 = length l2).
  { apply Nat.le_antisymm; apply trimmed_length_le; auto. }
  apply list_eq. intros k. specialize (Hget k). unfold js_get in Hget.
  destruct (Nat.lt_ge_cases k (length l1)) as [Hlt|Hge].
  - destruct (lookup_lt_is_Some_2 l1 k Hlt) as [c1 E1].
    destruct (lookup_lt_is_Some_2 l2 k ltac:(lia)) as [c2 E2].
    rewrite E1, E2 in *. simpl in Hget. now subst.
  - now rewrite !lookup_ge_None_2 by lia.
Qed.

(** ** Reads of the swapped array *)

Lemma js_get_insert_eq (l : list slot) (i : nat) (c : slot) :
  i < length l -> js_get (<[i := c]> l) i = c.
Proof. intros Hi. unfold js_get. now rewrite list_lookup_insert_eq. Qed.

Lemma js_get_insert_ne (l : list slot) (i k : nat) (c : slot) :
  i <> k -> js_get (<[i := c]> l) k = js_get l k.
Proof. intros Hne. unfold js_get. now rewrite list_lookup_insert_ne. Qed.

Lemma js_get_lookup (l : list slot) (i : nat) :
  i < length l -> l !! i = Some (js_get l i).
Proof.
  intros Hi. unfold js_get.
  destruct (lookup_lt_is_Some_2 l i Hi) as [c ->]. reflexivity.
Qed.

(** What a read of the array returns after the swap updater has run. *)
Lemma js_get_swap (i j k : nat) (l : list slot) :
  js_get (swap_update i j l) k
  = if decide (k = j) then js_get l i
    else if decide (k = i) then js_get l j
    else js_get l k.
Proof.
  unfold swap_update. rewrite js_get_trim.
  pose proof (ensure_length_exits (Nat.max i j) l) as Hlen.
  set (u := ensure_length (Nat.max i j) l) in *.
  assert (Hu : forall n, js_get u n = js_get l n).
  { intros n. apply js_get_ensure_length. }
  destruct (decide (k = j)) as [->|Hkj].
  - rewrite js_get_insert_eq by (rewrite length_insert; lia). apply Hu.
  - rewrite js_get_insert_ne by congruence.
    destruct (decide (k = i)) as [->|Hki].
    + rewrite js_get_insert_eq by lia. apply Hu.
    + rewrite js_get_insert_ne by congruence. apply Hu.
Qed.

Lemma swap_ends_present (i j : nat) (l : list slot) :
  ends_present (swap_update i j l) = true.
Proof. unfold swap_update. apply trim_ends_present. Qed.

Lemma swap_swap_trim (i j : nat) (l : list slot) :
  swap_update i j (swap_update i j l) = trim_trailing_nulls l.
Proof.
  apply trimmed_ext.
  - apply swap_ends_present.
  - apply trim_ends_present.
  - intros k. rewrite js_get_swap, js_get_trim, !js_get_swap.
    repeat case_decide; subst; congruence.
Qed.

Lemma ensure_length_in_range (maxIndex : nat) (l : list slot) :
  maxIndex < length l -> ensure_length maxIndex l = l.
Proof.
  intros H. rewrite ensure_length_replicate.
  replace (S maxIndex - length l) with 0 by lia. simpl. apply app_nil_r.
Qed.

Lemma swap_in_range (i j : nat) (l : list slot) :
  i < length l -> j < length l ->
  swap_update i j l = trim_trailing_nulls (exchanged i j l).
Proof.
  intros Hi Hj. unfold swap_update, exchanged.
  now rewrite ensure_length_in_range by lia.
Qed.

Lemma exchanged_ends_present (i j : nat) (l : list slot) :
  i < length l -> j < length l ->
  ends_present l = true ->
  (i = length l - 1 -> not_null (js_get l j) = true) ->
  (j = length l - 1 -> not_null (js_get l i) = true) ->
  ends_present (exchanged i j l) = true.
Proof.
  intros Hi Hj Hlast Hmi Hmj. unfold ends_present, exchanged in *.
  rewrite last_lookup in *. rewrite !length_insert.
  replace (Nat.pred (length l)) with (length l - 1) in * by lia.
  destruct (decide (j = length l - 1)) as [Ej|Nj].
  - rewrite <- Ej. rewrite list_lookup_insert_eq by (rewrite length_insert; lia).
    specialize (Hmj Ej). now destruct (js_get l i).
  - rewrite list_lookup_insert_ne by exact Nj.
    destruct (decide (i = length l - 1)) as [Ei|Ni].
    + rewrite <- Ei. rewrite list_lookup_insert_eq by lia.
      specialize (Hmi Ei). now destruct (js_get l j).
    + now rewrite list_lookup_insert_ne by exact Ni.
Qed.

(** ** Removal *)

Lemma remove_update_ge (g : Z) (l : list slot) :
  (Z.of_nat (length l) <= g)%Z -> remove_update g l = l.
Proof.
  intros Hg. unfold remove_update, js_splice1.
  destruct (Z.ltb_spec g 0) as [Hneg|_]; [lia|].
  rewrite Z.min_r by lia. rewrite Nat2Z.id.
  rewrite delete_take_drop, take_ge, drop_ge by lia. apply app_nil_r.
Qed.

Lemma remove_update_in_range (g : nat) (l : list slot) :
  remove_update (Z.of_nat g) l = delete g l.
Proof.
  unfold remove_update, js_splice1.
  destruct (Z.ltb_spec (Z.of_nat g) 0) as [Hneg|_]; [lia|].
  destruct (Nat.le_gt_cases (length l) g) as [Hge|Hlt].
  - rewrite Z.min_r by lia. rewrite Nat2Z.id.
    rewrite !delete_take_drop, !take_ge, !drop_ge by lia. reflexivity.
  - rewrite Z.min_l by lia. now rewrite Nat2Z.id.
Qed.

Lemma delete_ends_present (g : nat) (l : list slot) :
  ends_present l = true -> g <> length l - 1 ->
  ends_present (delete g l) = true.
Proof.
  intros Hlast Hg.
  destruct (Nat.le_gt_cases (length l) g) as [Hge|Hlt].
  - rewrite delete_take_drop, take_ge, drop_ge by lia.
    now rewrite app_nil_r.
  - unfold ends_present in *. rewrite last_lookup in *.
    rewrite length_delete by (apply lookup_lt_is_Some_2; lia).
    rewrite list_lookup_delete_ge by lia.
    replace (S (Nat.pred (length l - 1))) with (Nat.pred (length l)) by lia.
    exact Hlast.
Qed.

Lemma removeCard_allCards (indexOnPage : Z) (s : App) :
  allCards (exec (removeCard indexOnPage) s)
  = remove_update
      (Z.of_nat (currentPage s) * Z.of_nat ITEMS_PER_PAGE + indexOnPage)
      (allCards s).
Proof.
  unfold exec, removeCard, bind, get, setAllCards, setCurrentPage, modify, ret.
  simpl. now destruct (_ <=? _).
Qed.

Lemma removeCard_returns (indexOnPage : Z) (s : App) :
  result (removeCard indexOnPage) s = Returned tt.
Proof.
  unfold result, removeCard, bind, get, setAllCards, setCurrentPage, modify, ret.
  simpl. now destruct (_ <=? _).
Qed.

(** ** Batch upload *)

Lemma filter_not_null_present (l : list slot) :
  Forall (fun c => c <> None) (List.filter not_null l).
Proof.
  induction l as [|[v|] l IH]; simpl; auto.
Qed.

Lemma present_images_filter (l : list slot) :
  present_images (List.filter not_null l) = present_images l.
Proof.
  unfold present_images.
  induction l as [|[v|] l IH]; simpl; [reflexivity| |exact IH].
  now f_equal.
Qed.

Lemma present_images_map_Some (imgs : list image) :
  present_images (map Some imgs) = imgs.
Proof.
  unfold present_images. induction imgs as [|v imgs IH]; simpl; [reflexivity|].
  now f_equal.
Qed.

Lemma filter_forallb_id (l : list slot) :
  forallb not_null l = true -> List.filter not_null l = l.
Proof.
  induction l as [|c l IH]; simpl; [reflexivity|].
  intros H. apply andb_true_iff in H as [Hc Hl]. rewrite Hc. now rewrite IH.
Qed.

Lemma filter_interior_free (l : list slot) :
  interior_free l = true -> List.filter not_null l = trim_trailing_nulls l.
Proof.
  unfold interior_free.
  induction l as [|c l IH] using rev_ind; [reflexivity|].
  rewrite List.filter_app. destruct c as [v|]; simpl.
  - rewrite trim_snoc_image. intros H.
    change (List.filter not_null l ++ [Some v])
      with (List.filter not_null l ++ List.filter not_null [Some v]).
    rewrite <- List.filter_app. now apply filter_forallb_id.
  - rewrite trim_snoc_null, app_nil_r. exact IH.
Qed.

Lemma batch_update_present (newPhotos : list image) (prev : list slot) :
  Forall (fun c => c <> None) (batch_update newPhotos prev).
Proof.
  unfold batch_update. apply Forall_app. split.
  - apply filter_not_null_present.
  - induction newPhotos; simpl; constructor; [discriminate|assumption].
Qed.

Lemma handleBatchUpload_allCards (newPhotos : list image) (s : App) :
  allCards (exec (handleBatchUpload newPhotos) s)
  = match newPhotos with
    | [] => allCards s
    | _ :: _ => batch_update newPhotos (allCards s)
    end.
Proof. destruct newPhotos; reflexivity. Qed.

Lemma handleBatchUpload_returns (newPhotos : list image) (s : App) :
  result (handleBatchUpload newPhotos) s = Returned tt.
Proof. destruct newPhotos; reflexivity. Qed.

(** ** Page slicing *)

Lemma js_slice_page (cards : list slot) (start : nat) :
  js_slice cards (Z.of_nat start) (Z.of_nat start + 9)
  = take 9 (drop start cards).
Proof.
  unfold js_slice.
  destruct (Z.ltb_spec (Z.of_nat start) 0) as [Hneg|_]; [lia|].
  destruct (Z.ltb_spec (Z.of_nat start + 9) 0) as [Hneg|_]; [lia|].
  destruct (Nat.le_gt_cases (length cards) start) as [Hout|Hin].
  - rewrite !Z.min_r by lia. rewrite Z.sub_diag. simpl.
    now rewrite (drop_ge cards start) by lia.
  - rewrite (Z.min_l (Z.of_nat start)) by lia. rewrite Nat2Z.id.
    destruct (Nat.le_gt_cases (length cards) (start + 9)) as [Hshort|Hlong].
    + rewrite Z.min_r by lia.
      rewrite !take_ge; [reflexivity| |]; rewrite length_drop; lia.
    + rewrite Z.min_l by lia.
      replace (Z.to_nat (Z.max (Z.of_nat start + 9 - Z.of_nat start) 0))
        with 9 by lia.
      reflexivity.
Qed.

(** ** The claims on the collection *)

(** C8. For every collection and every page index [p >= 0],
    [getCardsForPage] returns (it does not throw) exactly 9 slots: the
    slice of the collection over the global indices [p*9 .. p*9+8],
    right-padded with empty slots.  The function reads [allCards] and
    builds a new array; the collection is not an output of it. *)
Theorem getCardsForPage_nine_slots (cards : list slot) (p : Z) :
  (0 <= p)%Z ->
  exists page,
    getCardsForPage cards p = Returned page
    /\ length page = 9
    /\ (forall k, k < 9 ->
          page !! k = Some (js_get cards (Z.to_nat p * 9 + k)))
    /\ page = take 9 (drop (Z.to_nat p * 9) cards)
              ++ replicate (9 - length (take 9 (drop (Z.to_nat p * 9) cards)))
                   None.
Proof.
  intros Hp. unfold getCardsForPage, ITEMS_PER_PAGE.
  replace (p * Z.of_nat 9)%Z with (Z.of_nat (Z.to_nat p * 9)) by lia.
  change (Z.of_nat 9) with 9%Z.
  rewrite js_slice_page.
  set (start := Z.to_nat p * 9).
  set (pageCards := take 9 (drop start cards)).
  assert (Hlen : length pageCards <= 9).
  { unfold pageCards. rewrite length_take. lia. }
  unfold js_Array_fill_null.
  destruct (Z.ltb_spec (9 - Z.of_nat (length pageCards)) 0) as [Hneg|_]; [lia|].
  replace (Z.to_nat (9 - Z.of_nat (length pageCards)))
    with (9 - length pageCards) by lia.
  eexists. split; [reflexivity|]. split; [|split; [|reflexivity]].
  - rewrite length_app, length_replicate. lia.
  - intros k Hk. unfold js_get.
    destruct (Nat.lt_ge_cases k (length pageCards)) as [Hin|Hpad].
    + rewrite lookup_app_l by exact Hin.
      unfold pageCards. rewrite lookup_take_lt by exact Hk.
      rewrite lookup_drop.
      unfold pageCards in Hin. rewrite length_take, length_drop in Hin.
      destruct (lookup_lt_is_Some_2 cards (start + k) ltac:(lia)) as [c ->].
      reflexivity.
    + rewrite lookup_app_r by exact Hpad.
      rewrite lookup_replicate_2 by lia.
      unfold pageCards in Hpad. rewrite length_take, length_drop in Hpad.
      now rewrite (lookup_ge_None_2 cards) by lia.
Qed.

Lemma getCardsForPage_nine_slots_witness :
  exists page,
    getCardsForPage full20 2 = Returned page
    /\ length page = 9
    /\ (forall k, k < 9 -> page !! k = Some (js_get full20 (Z.to_nat 2 * 9 + k)))
    /\ page = take 9 (drop (Z.to_nat 2 * 9) full20)
              ++ replicate (9 - length (take 9 (drop (Z.to_nat 2 * 9) full20)))
                   None.
Proof. apply (getCardsForPage_nine_slots full20 2). lia. Defined.

(** C10. The updater of the batch upload leaves no empty slot at any
    position: every slot of its result holds an image, the interior
    empties of the previous collection having been filtered out with the
    trailing ones. *)
Theorem batch_update_no_empty_slot (newPhotos : list image) (prev : list slot) :
  Forall (fun c => c <> None) (batch_update newPhotos prev)
  /\ forall k, batch_update newPhotos prev !! k <> Some None.
Proof.
  pose proof (batch_update_present newPhotos prev) as H.
  split; [exact H|].
  intros k Hk. rewrite Forall_lookup in H. now apply (H k None).
Qed.

(** The same at the level of the handler, which applies the updater for
    every non-empty selection of files. *)
Lemma handleBatchUpload_no_empty_slot (newPhotos : list image) (s : App) :
  newPhotos <> [] ->
  Forall (fun c => c <> None) (allCards (exec (handleBatchUpload newPhotos) s)).
Proof.
  intros Hne. rewrite handleBatchUpload_allCards.
  destruct newPhotos; [congruence|]. apply batch_update_present.
Qed.

(** C1, as stated, fails: with an interior empty slot the batch upload
    does not keep the non-trailing slots at their positions.  Slot 1 of
    [gapped] is empty and not trailing; after the upload slot 1 holds the
    image that was in slot 2. *)
Lemma batch_append_moves_interior_slots :
  let s := with_allCards gapped initialApp in
  let after := allCards (exec (handleBatchUpload [imgC]) s) in
  trim_trailing_nulls gapped = gapped
  /\ after = [Some imgA; Some imgB; Some imgC]
  /\ after <> trim_trailing_nulls gapped ++ [Some imgC]
  /\ after !! 1 <> gapped !! 1.
Proof. repeat split; try reflexivity; discriminate. Qed.

(** C1, amended.  The batch upload never throws; for a non-empty
    selection it replaces the collection by the updater's result, which
    holds no empty slot and lists the images that were present, in their
    order, followed by the new images in order.  When the collection has
    no interior empty slot this is the collection stripped of its trailing
    empties followed by the new images, and every non-trailing slot stays
    at its position. *)
Theorem batch_append_drops_every_empty (newPhotos : list image) (s : App) :
  let prev := allCards s in
  let updated := batch_update newPhotos prev in
  result (handleBatchUpload newPhotos) s = Returned tt
  /\ (newPhotos <> [] ->
      allCards (exec (handleBatchUpload newPhotos) s) = updated)
  /\ Forall (fun c => c <> None) updated
  /\ present_images updated = present_images prev ++ newPhotos
  /\ (interior_free prev = true ->
      updated = trim_trailing_nulls prev ++ map Some newPhotos
      /\ forall k, k < length (trim_trailing_nulls prev) ->
                   updated !! k = prev !! k).
Proof.
  intros prev updated. split; [apply handleBatchUpload_returns|].
  split.
  { intros Hne. rewrite handleBatchUpload_allCards.
    destruct newPhotos; [congruence|reflexivity]. }
  split; [apply batch_update_present|].
  split.
  { unfold updated, batch_update, present_images. rewrite omap_app.
    fold (present_images (List.filter not_null prev)).
    fold (present_images (map Some newPhotos)).
    now rewrite present_images_filter, present_images_map_Some. }
  intros Hfree.
  assert (E : updated = trim_trailing_nulls prev ++ map Some newPhotos).
  { unfold updated, batch_update. now rewrite filter_interior_free. }
  split; [exact E|].
  intros k Hk. rewrite E, lookup_app_l by exact Hk. now apply trim_prefix.
Qed.

Lemma batch_append_drops_every_empty_witness :
  let s := with_allCards [Some imgA; Some imgB; None] initialApp in
  let prev := allCards s in
  let updated := batch_update [imgC] prev in
  interior_free prev = true
  /\ allCards (exec (handleBatchUpload [imgC]) s) = updated
  /\ updated = trim_trailing_nulls prev ++ map Some [imgC]
  /\ forall k, k < length (trim_trailing_nulls prev) -> updated !! k = prev !! k.
Proof.
  intros s prev updated.
  destruct (batch_append_drops_every_empty [imgC] s) as (_ & Hs & _ & _ & Hf).
  split; [reflexivity|]. split; [apply Hs; discriminate|].
  apply Hf. reflexivity.
Defined.

(** C3, as stated, fails: [removeCard] has no range check and no error
    path.  Removing at global index 5 of a two-slot collection returns
    normally. *)
Lemma remove_out_of_range_returns :
  let s := with_allCards [Some imgA; Some imgB] initialApp in
  (Z.of_nat (length (allCards s)) <= 5)%Z
  /\ is_thrown (result (removeCard 5) s) = false
  /\ result (removeCard 5) s = Returned tt.
Proof. repeat split. simpl. lia. Qed.

(** C3, amended.  For every collection and every index at or beyond its
    length, [removeCard] returns without an error and leaves the
    collection unchanged: nothing is removed. *)
Theorem remove_beyond_length_is_noop (indexOnPage : Z) (s : App) :
  let globalIndex :=
    (Z.of_nat (currentPage s) * Z.of_nat ITEMS_PER_PAGE + indexOnPage)%Z in
  (Z.of_nat (length (allCards s)) <= globalIndex)%Z ->
  result (removeCard indexOnPage) s = Returned tt
  /\ allCards (exec (removeCard indexOnPage) s) = allCards s.
Proof.
  intros g Hg. split; [apply removeCard_returns|].
  rewrite removeCard_allCards. now apply remove_update_ge.
Qed.

Lemma remove_beyond_length_is_noop_witness :
  let s := with_allCards [Some imgA; Some imgB] initialApp in
  result (removeCard 5) s = Returned tt
  /\ allCards (exec (removeCard 5) s) = allCards s.
Proof.
  intros s. apply (remove_beyond_length_is_noop 5 s). simpl. lia.
Defined.

(** C2, as stated, fails for removal.  Two single uploads into slots 0
    and 2 of the empty binder give a collection whose slot 1 is empty;
    removing slot 2 leaves [[image; empty]], whose last slot is empty. *)
Lemma remove_leaves_trailing_empty :
  let s := exec (handleSingleUploadChange 0 imgA ;;
                 handleSingleUploadChange 2 imgB) initialApp in
  let after := allCards (exec (removeCard 2) s) in
  allCards s = gapped
  /\ after = [Some imgA; None]
  /\ last after = Some None
  /\ ends_present after = false.
Proof. repeat split. Qed.

(** C2, amended.  After every swap the collection has no trailing run of
    empty slots: its last slot, if any, holds an image.  Removal strips
    nothing: it keeps that property of a collection that has it whenever
    the removed slot is not the last one. *)
Theorem swap_strips_remove_keeps (i j : nat) (indexOnPage : nat) (s : App) :
  ends_present (swap_update i j (allCards s)) = true
  /\ (ends_present (allCards s) = true ->
      currentPage s * ITEMS_PER_PAGE + indexOnPage <> length (allCards s) - 1 ->
      ends_present (allCards (exec (removeCard (Z.of_nat indexOnPage)) s))
      = true).
Proof.
  split; [apply swap_ends_present|].
  intros Hlast Hne. rewrite removeCard_allCards.
  replace (Z.of_nat (currentPage s) * Z.of_nat ITEMS_PER_PAGE
           + Z.of_nat indexOnPage)%Z
    with (Z.of_nat (currentPage s * ITEMS_PER_PAGE + indexOnPage)) by lia.
  rewrite remove_update_in_range. now apply delete_ends_present.
Qed.

Lemma swap_strips_remove_keeps_witness :
  let s := with_allCards gapped initialApp in
  ends_present (swap_update 1 2 (allCards s)) = true
  /\ ends_present (allCards (exec (removeCard (Z.of_nat 0)) s)) = true.
Proof.
  intros s. destruct (swap_strips_remove_keeps 1 2 0 s) as [Hswap Hrem].
  split; [exact Hswap|]. apply Hrem; [reflexivity|]. simpl. lia.
Defined.

(** C6. For every collection and every pair of distinct indices, two
    successive swaps of the same pair give the collection with its
    trailing empties trimmed; trimming a trimmed collection changes
    nothing; hence a collection with no trailing empty slot is restored
    exactly. *)
Theorem swap_twice_restores (i j : nat) (l : list slot) :
  i <> j ->
  swap_update i j (swap_update i j l) = trim_trailing_nulls l
  /\ trim_trailing_nulls (trim_trailing_nulls l) = trim_trailing_nulls l
  /\ (ends_present l = true -> swap_update i j (swap_update i j l) = l).
Proof.
  intros _. split; [apply swap_swap_trim|]. split; [apply trim_idempotent|].
  intros Hlast. rewrite swap_swap_trim. now apply trim_fixed.
Qed.

Lemma swap_twice_restores_witness :
  swap_update 0 5 (swap_update 0 5 gapped) = trim_trailing_nulls gapped
  /\ trim_trailing_nulls (trim_trailing_nulls gapped) = trim_trailing_nulls gapped
  /\ swap_update 0 5 (swap_update 0 5 gapped) = gapped.
Proof.
  destruct (swap_twice_restores 0 5 gapped) as (H1 & H2 & H3); [lia|].
  split; [exact H1|]. split; [exact H2|]. apply H3. reflexivity.
Defined.

(** C7, as stated, fails: the last slot of [gapped] is present and the
    indices 2 and 1 are distinct and in range, yet dragging the image of
    slot 2 onto the empty slot 1 moves the empty slot to the end, where
    it is trimmed: the length drops from 3 to 2. *)
Lemma swap_with_last_shrinks :
  ends_present gapped = true
  /\ 2 < length gapped /\ 1 < length gapped /\ 2 <> 1
  /\ swap_update 2 1 gapped = [Some imgA; Some imgB]
  /\ length (swap_update 2 1 gapped) <> length gapped.
Proof. repeat split; simpl; lia. Qed.

(** C7, amended.  For a swap of two distinct in-range indices in a
    collection whose last slot is present and stays present (neither
    index is the last one, or the slot moved into the last position holds
    an image), the contents of the two positions are exchanged, every
    other position is unchanged and so is the length. *)
Theorem swap_in_range_exchanges (i j : nat) (l : list slot) :
  i <> j -> i < length l -> j < length l ->
  ends_present l = true ->
  (i = length l - 1 -> not_null (js_get l j) = true) ->
  (j = length l - 1 -> not_null (js_get l i) = true) ->
  let r := swap_update i j l in
  r !! i = l !! j
  /\ r !! j = l !! i
  /\ (forall k, k <> i -> k <> j -> r !! k = l !! k)
  /\ length r = length l.
Proof.
  intros Hij Hi Hj Hlast Hmi Hmj r.
  assert (E : r = exchanged i j l).
  { unfold r. rewrite swap_in_range by assumption.
    apply trim_fixed. now apply exchanged_ends_present. }
  rewrite E. unfold exchanged. repeat split.
  - rewrite list_lookup_insert_ne by congruence.
    rewrite list_lookup_insert_eq by exact Hi.
    symmetry. now apply js_get_lookup.
  - rewrite list_lookup_insert_eq by (rewrite length_insert; exact Hj).
    symmetry. now apply js_get_lookup.
  - intros k Hki Hkj. now rewrite !list_lookup_insert_ne by congruence.
  - now rewrite !length_insert.
Qed.

Lemma swap_in_range_exchanges_witness :
  let l := <[2 := Some imgB]> (<[15 := Some imgC]> full20) in
  let r := swap_update 2 15 l in
  length l = 20
  /\ r !! 2 = l !! 15
  /\ r !! 15 = l !! 2
  /\ (forall k, k <> 2 -> k <> 15 -> r !! k = l !! k)
  /\ length r = length l.
Proof.
  intros l r. split; [reflexivity|].
  apply (swap_in_range_exchanges 2 15 l); simpl; try lia; try reflexivity.
Defined.

(** The drag commit applies [swap_update] exactly when the slot under the
    release point is not the dragged one. *)
Lemma hit_test_commits_swap (h : host) (clientX clientY : Z)
  (source target : nat) (s : App) :
  slotAtPoint h clientX clientY = Some target ->
  allCards (exec (run_callback h (HitTest clientX clientY (Some source))) s)
  = if target =? source then allCards s
    else swap_update source target (allCards s).
Proof.
  intros Hhit. unfold exec. simpl. rewrite Hhit.
  now destruct (target =? source).
Qed.

(** ** The export loop *)

Lemma export_loop_step_mounted (h : host) (n i : nat) (images : list image)
  (el : element) (s : App) :
  exportRefs h !! i = Some (Some el) ->
  export_loop h (S n) i images s
  = match rasterize h el with
    | Returned png =>
        export_loop h n (S i) (images ++ [png])
          (with_effects (effects s ++ [request el]) s)
    | Thrown e => (Thrown e, with_effects (effects s ++ [request el]) s)
    end.
Proof.
  intros Href. simpl. rewrite Href.
  unfold rasterize, bind, emit, modify, await. simpl.
  destruct (html2canvas h el) as [cv|e]; [|reflexivity].
  now destruct (toDataURL h cv).
Qed.

Lemma export_loop_step_skipped (h : host) (n i : nat) (images : list image)
  (s : App) :
  (forall el, exportRefs h !! i <> Some (Some el)) ->
  export_loop h (S n) i images s = export_loop h n (S i) images s.
Proof.
  intros Href. simpl.
  destruct (exportRefs h !! i) as [[el|]|]; [now destruct (Href el)| |];
    reflexivity.
Qed.

Lemma with_effects_same (s : App) : with_effects (effects s ++ []) s = s.
Proof. destruct s. unfold with_effects. simpl. now rewrite app_nil_r. Qed.

Lemma with_effects_app (e1 e2 : list effect) (s : App) :
  with_effects (effects (with_effects (effects s ++ e1) s) ++ e2)
    (with_effects (effects s ++ e1) s)
  = with_effects (effects s ++ e1 ++ e2) s.
Proof. unfold with_effects. simpl. now rewrite app_assoc. Qed.

(** The loop touches nothing but the effect log, to which it only adds
    rasterization requests. *)
Lemma export_loop_state (h : host) (n : nat) :
  forall i images s,
  exists req,
    snd (export_loop h n i images s) = with_effects (effects s ++ req) s
    /\ Forall (fun r => exists el, r = request el) req.
Proof.
  induction n as [|n IH]; intros i images s.
  - exists []. split; [|constructor]. simpl. symmetry. apply with_effects_same.
  - destruct (exportRefs h !! i) as [[el|]|] eqn:Href.
    + rewrite (export_loop_step_mounted h n i images el s Href).
      destruct (rasterize h el) as [png|e].
      * destruct (IH (S i) (images ++ [png])
                    (with_effects (effects s ++ [request el]) s))
          as (req & Hs & Hreq).
        exists ([request el] ++ req). split.
        -- rewrite Hs. apply with_effects_app.
        -- apply Forall_app. split; [|exact Hreq].
           constructor; [now exists el|constructor].
      * exists [request el]. split; [reflexivity|].
        constructor; [now exists el|constructor].
    + rewrite export_loop_step_skipped by (intros el; congruence). apply IH.
    + rewrite export_loop_step_skipped by (intros el; congruence). apply IH.
Qed.

Lemma requests_set_no_images (req : list effect) :
  Forall (fun r => exists el, r = request el) req ->
  Forall (fun e => is_set_images e = false) req.
Proof.
  induction 1 as [|r req [el ->] _ IH]; constructor; [reflexivity|exact IH].
Qed.

(** A failing page inside the range of the loop makes the loop throw. *)
Lemma export_loop_throws (h : host) (n : nat) :
  forall i images s k el,
  i <= k < i + n ->
  exportRefs h !! k = Some (Some el) ->
  is_thrown (rasterize h el) = true ->
  is_thrown (fst (export_loop h n i images s)) = true.
Proof.
  induction n as [|n IH]; intros i images s k el Hk Href Hfail; [lia|].
  destruct (exportRefs h !! i) as [[el'|]|] eqn:Hi.
  - rewrite (export_loop_step_mounted h n i images el' s Hi).
    destruct (rasterize h el') as [png|e] eqn:Hr; [|reflexivity].
    destruct (decide (k = i)) as [->|Hne].
    + rewrite Href in Hi. injection Hi as ->. rewrite Hr in Hfail. discriminate.
    + apply (IH _ _ _ k el); [lia|assumption|assumption].
  - rewrite export_loop_step_skipped by (intros e; congruence).
    destruct (decide (k = i)) as [->|Hne]; [congruence|].
    apply (IH _ _ _ k el); [lia|assumption|assumption].
  - rewrite export_loop_step_skipped by (intros e; congruence).
    destruct (decide (k = i)) as [->|Hne]; [congruence|].
    apply (IH _ _ _ k el); [lia|assumption|assumption].
Qed.

(** When the pages [i, i+1, ...] are mounted as [els] and each of them
    rasterizes, the loop requests them one after the other and returns
    their images in that order. *)
Lemma export_loop_success (h : host) (els : list element) :
  forall i images s,
  (forall k el, els !! k = Some el -> exportRefs h !! (i + k) = Some (Some el)) ->
  Forall (fun el => is_thrown (rasterize h el) = false) els ->
  export_loop h (length els) i images s
  = (Returned (images ++ omap (png_of h) els),
     with_effects (effects s ++ map request els) s).
Proof.
  induction els as [|el els IH]; intros i images s Href Hok.
  - simpl. unfold ret. now rewrite app_nil_r, with_effects_same.
  - assert (Hi : exportRefs h !! i = Some (Some el)).
    { specialize (Href 0 el eq_refl). now rewrite Nat.add_0_r in Href. }
    apply Forall_cons in Hok as [Hel Hels].
    change (length (el :: els)) with (S (length els)).
    rewrite (export_loop_step_mounted h _ i images el s Hi).
    simpl. unfold png_of at 1.
    destruct (rasterize h el) as [png|e]; [|discriminate].
    rewrite IH.
    + rewrite with_effects_app. now rewrite <- app_assoc.
    + intros k el' Hk. specialize (Href (S k) el' Hk).
      now replace (S i + k) with (i + S k) by lia.
    + exact Hels.
Qed.

Lemma png_of_success (h : host) (els : list element) :
  Forall (fun el => is_thrown (rasterize h el) = false) els ->
  Forall2 (fun el png => rasterize h el = Returned png) els
    (omap (png_of h) els).
Proof.
  induction 1 as [|el els Hel _ IH]; simpl; [constructor|].
  unfold png_of at 1.
  destruct (rasterize h el) as [png|e] eqn:E; [|discriminate].
  constructor; [exact E|exact IH].
Qed.

(** [ceil_div n 9] is the ceiling of [n / 9]: the least number of pages of
    nine slots that hold [n] slots. *)
Lemma ceil_div_9_spec (n : nat) :
  n <= 9 * ceil_div n 9 /\ 9 * ceil_div n 9 < n + 9.
Proof.
  unfold ceil_div. simpl (9 - 1).
  pose proof (Nat.div_mod_eq (n + 8) 9) as E.
  pose proof (Nat.mod_upper_bound (n + 8) 9 ltac:(lia)) as B.
  lia.
Qed.

(** ** The claims on the export *)

Lemma handleGenerateAll_run (h : host) (s : App) :
  html2canvas_loaded h = true -> allCards s <> [] ->
  handleGenerateAll h s
  = match export_loop h (totalPages (allCards s)) 0 [] (settled s) with
    | (Returned images, s2) =>
        (Returned tt,
         with_isGenerating false
           (with_generatedImages images
              (with_effects (effects s2 ++ [SetGeneratedImages images]) s2)))
    | (Thrown e, s2) =>
        (Returned tt,
         with_isGenerating false
           (with_effects
              (effects s2 ++ [ConsoleError e] ++ [Alert ExportFailed]) s2))
    end.
Proof.
  intros Hloaded Hcards.
  assert (Hlen : (length (allCards s) =? 0) = false).
  { apply Nat.eqb_neq. destruct (allCards s); simpl; congruence. }
  unfold handleGenerateAll, setIsGenerating, setGeneratedImages, emit,
    try_catch_finally, bind, get, modify, ret.
  rewrite Hloaded, Hlen. cbv beta iota zeta. cbn [negb].
  change (with_effects (effects (with_isGenerating true s) ++ [Settle 800])
            (with_isGenerating true s)) with (settled s).
  destruct (export_loop h (totalPages (allCards s)) 0 [] (settled s))
    as [[images|e] s2].
  - reflexivity.
  - unfold bind, modify, with_isGenerating, with_effects. simpl.
    now rewrite <- app_assoc.
Qed.

(** C4. If the rasterization of any page whose layout is mounted throws,
    the export sets no image list: [setGeneratedImages] is not called (not
    with a prefix of the pages rasterized so far, not with anything) and
    [generatedImages] keeps its previous value.  In an export run (the
    rasterizer is loaded and the collection is not empty) the settle
    delay and the requests made so far are followed by one logged error
    and one failure notice, and [isGenerating] is cleared. *)
Theorem export_failure_sets_no_images (h : host) (s : App)
  (k : nat) (el : element) :
  k < totalPages (allCards s) ->
  exportRefs h !! k = Some (Some el) ->
  is_thrown (rasterize h el) = true ->
  let s' := exec (handleGenerateAll h) s in
  generatedImages s' = generatedImages s
  /\ (exists new,
        effects s' = effects s ++ new
        /\ Forall (fun e => is_set_images e = false) new)
  /\ (html2canvas_loaded h = true -> allCards s <> [] ->
      exists req e,
        effects s'
        = effects s ++ [Settle 800] ++ req
          ++ [ConsoleError e; Alert ExportFailed]
        /\ Forall (fun r => exists el', r = request el') req
        /\ isGenerating s' = false).
Proof.
  intros Hk Href Hfail s'.
  destruct (html2canvas_loaded h) eqn:Hloaded.
  2:{ subst s'. unfold exec, handleGenerateAll, bind, get. rewrite Hloaded.
      simpl. split; [reflexivity|]. split; [|discriminate].
      exists [Alert StillInitialising]. split; [reflexivity|repeat constructor]. }
  destruct (allCards s) as [|c cards] eqn:Ecards.
  { subst s'. unfold exec, handleGenerateAll, bind, get.
    rewrite Hloaded, Ecards. simpl. split; [reflexivity|].
    split; [|congruence].
    exists [Alert AddImagesFirst]. split; [reflexivity|repeat constructor]. }
  assert (Hne : allCards s <> []) by congruence.
  rewrite <- Ecards in *. clear Ecards c cards.
  pose proof (handleGenerateAll_run h s Hloaded Hne) as Hrun.
  pose proof (export_loop_throws h (totalPages (allCards s)) 0 []
                (settled s) k el ltac:(lia) Href Hfail) as Hthrown.
  destruct (export_loop_state h (totalPages (allCards s)) 0 [] (settled s))
    as (req & Hstate & Hreq).
  set (loop := export_loop h (totalPages (allCards s)) 0 [] (settled s)) in *.
  clearbody loop. destruct loop as [[images|e] s2]; [discriminate|].
  cbn [snd] in Hstate. subst s2. subst s'. unfold exec. rewrite Hrun.
  cbn [snd]. split; [reflexivity|].
  assert (E : effects
                (with_isGenerating false
                   (with_effects
                      (effects (with_effects (effects (settled s) ++ req)
                                  (settled s))
                       ++ [ConsoleError e] ++ [Alert ExportFailed])
                      (with_effects (effects (settled s) ++ req) (settled s))))
              = effects s ++ [Settle 800] ++ req
                ++ [ConsoleError e; Alert ExportFailed]).
  { simpl. now rewrite <- !app_assoc. }
  split.
  - exists ([Settle 800] ++ req ++ [ConsoleError e; Alert ExportFailed]).
    split; [exact E|].
    apply Forall_app. split; [repeat constructor|].
    apply Forall_app. split; [|repeat constructor].
    now apply requests_set_no_images.
  - intros _ _. exists req, e. split; [exact E|]. split; [exact Hreq|].
    reflexivity.
Qed.

Lemma export_failure_sets_no_images_witness :
  let s := with_generatedImages [imgB] (with_allCards nineteen initialApp) in
  let s' := exec (handleGenerateAll failingHost) s in
  totalPages (allCards s) = 3
  /\ generatedImages s' = [imgB]
  /\ exists new,
       effects s' = effects s ++ new
       /\ Forall (fun e => is_set_images e = false) new.
Proof.
  intros s s'. split; [reflexivity|].
  destruct (export_failure_sets_no_images failingHost s 1 1) as (Hg & Hn & _).
  - unfold s. simpl. vm_compute. lia.
  - reflexivity.
  - reflexivity.
  - split; [exact Hg|exact Hn].
Defined.

Lemma requests_of_requests (els : list element) :
  requests_of (map request els) = els.
Proof.
  unfold requests_of. induction els as [|el els IH]; simpl; [reflexivity|].
  now f_equal.
Qed.

Lemma removelast_cons_success (h : host) (el : element) (reqs : list element) :
  is_thrown (rasterize h el) = false ->
  awaited_in_turn h reqs -> awaited_in_turn h (el :: reqs).
Proof.
  unfold awaited_in_turn. intros Hel Hreqs.
  destruct reqs as [|el' reqs]; [constructor|].
  change (removelast (el :: el' :: reqs)) with (el :: removelast (el' :: reqs)).
  now constructor.
Qed.

(** The loop issues its requests in turn: whatever the rasterizer does, a
    layout is requested only when every request made before has returned
    an image, and the loop returns only when all have. *)
Lemma export_loop_in_turn (h : host) (n : nat) :
  forall i images s,
  exists reqs,
    snd (export_loop h n i images s)
    = with_effects (effects s ++ map request reqs) s
    /\ awaited_in_turn h reqs
    /\ (is_thrown (fst (export_loop h n i images s)) = false ->
        Forall (fun el => is_thrown (rasterize h el) = false) reqs).
Proof.
  induction n as [|n IH]; intros i images s.
  - exists []. split; [|split; constructor]. simpl. symmetry.
    apply with_effects_same.
  - destruct (exportRefs h !! i) as [[el|]|] eqn:Href.
    + rewrite (export_loop_step_mounted h n i images el s Href).
      destruct (rasterize h el) as [png|e] eqn:Hel.
      * destruct (IH (S i) (images ++ [png])
                    (with_effects (effects s ++ [request el]) s))
          as (reqs & Hs & Hturn & Hall).
        exists (el :: reqs). split; [|split].
        -- rewrite Hs. apply with_effects_app.
        -- apply removelast_cons_success; [now rewrite Hel|exact Hturn].
        -- intros Hret. constructor; [now rewrite Hel|now apply Hall].
      * exists [el]. split; [reflexivity|]. split; [constructor|].
        discriminate.
    + rewrite export_loop_step_skipped by (intros el; congruence). apply IH.
    + rewrite export_loop_step_skipped by (intros el; congruence). apply IH.
Qed.

Lemma requests_of_app (l1 l2 : list effect) :
  requests_of (l1 ++ l2) = requests_of l1 ++ requests_of l2.
Proof. unfold requests_of. apply omap_app. Qed.

(** In every run of the export, whatever the rasterizer does, the layouts
    are requested in turn. *)
Lemma handleGenerateAll_in_turn (h : host) (s : App) :
  awaited_in_turn h (requested h s).
Proof.
  unfold requested.
  destruct (html2canvas_loaded h) eqn:Hloaded.
  2:{ unfold exec, handleGenerateAll, bind, get. rewrite Hloaded. simpl.
      rewrite drop_app_length. constructor. }
  destruct (allCards s) as [|c cards] eqn:Ecards.
  { unfold exec, handleGenerateAll, bind, get. rewrite Hloaded, Ecards. simpl.
    rewrite drop_app_length. constructor. }
  assert (Hne : allCards s <> []) by congruence.
  pose proof (handleGenerateAll_run h s Hloaded Hne) as Hrun.
  destruct (export_loop_in_turn h (totalPages (allCards s)) 0 [] (settled s))
    as (reqs & Hstate & Hturn & _).
  set (loop := export_loop h (totalPages (allCards s)) 0 [] (settled s)) in *.
  clearbody loop. destruct loop as [[images|e] s2];
    cbn [snd] in Hstate; subst s2; unfold exec; rewrite Hrun; cbn [snd].
  - simpl. rewrite <- !app_assoc.
    rewrite drop_app_length, !requests_of_app, requests_of_requests.
    simpl. now rewrite app_nil_r.
  - simpl. rewrite <- !app_assoc.
    rewrite drop_app_length, !requests_of_app, requests_of_requests.
    simpl. now rewrite app_nil_r.
Qed.

(** C5, as stated, fails: the loop skips a page whose layout element is
    not mounted.  The handler works on the collection of the render it
    was created in (here ten slots, two pages); when a card is removed
    during the settle delay the hidden area is rendered again for the
    shorter collection, one page, and the ref of the second page is empty
    when the loop reads it.  The export completes, no error is raised, and
    the image list has one entry instead of two. *)
Lemma export_skips_unmounted_page :
  let s := with_allCards ten initialApp in
  let s' := exec (handleGenerateAll unmountedHost) s in
  Nat.max 1 (ceil_div (length (allCards s)) 9) = 2
  /\ effects s' = [Settle 800; Html2canvas 0 2; SetGeneratedImages [imgA]]
  /\ generatedImages s' = [imgA]
  /\ length (generatedImages s')
     <> Nat.max 1 (ceil_div (length (allCards s)) 9).
Proof. repeat split. vm_compute. lia. Qed.

(** C5, amended.  In an export of a collection with [n >= 1] slots in
    which the layout of every page is mounted ([els] lists the elements,
    page by page) and every rasterization returns, the image list that is
    set has exactly [max 1 (ceil (n / 9))] entries, the k-th being the
    rasterization of page k; the pages are requested in ascending order
    and the list is set after the last of them.  The pages are rasterized
    one at a time: in every run, whatever the rasterizer answers, a page
    is requested only when each request made before it has returned its
    image, so that a request that fails is the last one made. *)
Theorem export_success_one_image_per_page (h : host) (s : App)
  (els : list element) :
  html2canvas_loaded h = true ->
  allCards s <> [] ->
  length els = totalPages (allCards s) ->
  (forall k el, els !! k = Some el -> exportRefs h !! k = Some (Some el)) ->
  Forall (fun el => is_thrown (rasterize h el) = false) els ->
  let s' := exec (handleGenerateAll h) s in
  let images := generatedImages s' in
  length images = Nat.max 1 (ceil_div (length (allCards s)) 9)
  /\ Forall2 (fun el png => rasterize h el = Returned png) els images
  /\ effects s'
     = effects s ++ [Settle 800] ++ map request els
       ++ [SetGeneratedImages images]
  /\ isGenerating s' = false
  /\ (forall h' : host, awaited_in_turn h' (requested h' s)).
Proof.
  intros Hloaded Hne Hlen Hrefs Hok s' images.
  pose proof (handleGenerateAll_run h s Hloaded Hne) as Hrun.
  rewrite <- Hlen in Hrun.
  rewrite (export_loop_success h els 0 [] (settled s)) in Hrun
    by assumption.
  rewrite app_nil_l in Hrun.
  assert (Eimg : images = omap (png_of h) els).
  { unfold images, s', exec. now rewrite Hrun. }
  pose proof (png_of_success h els Hok) as Hpng.
  split; [|split; [|split; [|split]]].
  - rewrite Eimg. rewrite <- (Forall2_length _ _ _ Hpng). exact Hlen.
  - now rewrite Eimg.
  - rewrite Eimg. unfold s', exec. rewrite Hrun. simpl.
    now rewrite <- !app_assoc.
  - unfold s', exec. now rewrite Hrun.
  - intros h'. apply handleGenerateAll_in_turn.
Qed.

Lemma export_success_one_image_per_page_witness :
  let s := with_allCards nineteen initialApp in
  let s' := exec (handleGenerateAll workingHost) s in
  length (generatedImages s') = 3
  /\ effects s'
     = [Settle 800; Html2canvas 0 2; Html2canvas 1 2; Html2canvas 2 2;
        SetGeneratedImages [imgA; imgA; imgA]]
  /\ requested failingHost s = [0; 1]
  /\ awaited_in_turn failingHost (requested failingHost s).
Proof.
  intros s s'.
  destruct (export_success_one_image_per_page workingHost s [0; 1; 2])
    as (Hlen & Himgs & Heff & _ & Hturn).
  - reflexivity.
  - discriminate.
  - reflexivity.
  - intros [|[|[|k]]] el Hk; simpl in Hk; try discriminate;
      injection Hk as <-; reflexivity.
  - repeat constructor.
  - split; [exact Hlen|]. split; [unfold s'; rewrite Heff; reflexivity|].
    split; [reflexivity|apply Hturn].
Defined.

(** ** The drag controller *)

Ltac unfold_handlers :=
  unfold exec, result, step, fire, handleTouchStart, handleMouseDown,
    handleTouchMove, handleMouseMove, endDrag, moveDrag, startDrag,
    clearTouchTimer, run_callback, setAllCards, setCurrentPage, setDragState,
    clearTimeout, setTimeout, emit, bind, get, modify, ret.

(** No listener and no timer closure of the controller throws. *)
Lemma step_returns (h : host) (ev : event) (s : App) :
  result (step h ev) s = Returned tt.
Proof.
  destruct ev as [[idx|] cx cy|[idx|] cx cy|cx cy|cx cy|cx cy|cx cy|id|cx cy];
    unfold_handlers; simpl;
    repeat (match goal with
            | |- context [if ?b then _ else _] => destruct b
            | |- context [match ?o with Some _ => _ | None => _ end] =>
                destruct o
            | |- context [match ?c with LongPress _ _ _ _ => _ | _ => _ end] =>
                destruct c
            end; simpl);
    reflexivity.
Qed.

Lemma run_cons (h : host) (ev : event) (rest : list event) (s : App) :
  exec (run h (ev :: rest)) s = exec (run h rest) (exec (step h ev) s).
Proof.
  pose proof (step_returns h ev s) as Hret.
  unfold exec, result in *. simpl. unfold bind.
  destruct (step h ev s) as [o s1]. simpl in Hret. now subst o.
Qed.

Lemma run_app (h : host) (evs1 evs2 : list event) (s : App) :
  exec (run h (evs1 ++ evs2)) s = exec (run h evs2) (exec (run h evs1) s).
Proof.
  revert s. induction evs1 as [|ev evs1 IH]; intros s; [reflexivity|].
  rewrite <- app_comm_cons, !run_cons. apply IH.
Qed.

Lemma forallb_filter_keeps {A} (f g : A -> bool) (l : list A) :
  forallb f l = true -> forallb f (List.filter g l) = true.
Proof.
  induction l as [|a l IH]; simpl; [reflexivity|].
  intros H. apply andb_true_iff in H as [Ha Hl].
  destruct (g a); simpl; [rewrite Ha|]; auto.
Qed.

(** Outside a gesture, events other than a pointer-down leave the
    controller idle and the collection alone. *)
Lemma step_quiescent (h : host) (ev : event) (s : App) :
  quiescent s = true -> is_pointer_down ev = false ->
  quiescent (exec (step h ev) s) = true
  /\ allCards (exec (step h ev) s) = allCards s
  /\ dragState (exec (step h ev) s) = dragState s.
Proof.
  unfold quiescent. intros Hq Hev.
  apply andb_true_iff in Hq as [Hdrag Htimers].
  apply negb_true_iff in Hdrag.
  destruct ev as [? ? ?|? ? ?|cx cy|cx cy|cx cy|cx cy|id|cx cy];
    try discriminate; unfold_handlers; simpl; rewrite ?Hdrag; simpl.
  - destruct (isPreviewMode s); simpl; [now rewrite Hdrag, Htimers|].
    rewrite Hdrag. simpl.
    destruct (_ || _); simpl; [|now rewrite Hdrag, Htimers].
    destruct (touchTimerRef s); simpl; rewrite Hdrag; simpl;
      [|now rewrite Htimers].
    now rewrite forallb_filter_keeps.
  - now rewrite Hdrag, Htimers.
  - destruct (isPreviewMode s); simpl; [now rewrite Hdrag, Htimers|].
    destruct (touchTimerRef s); simpl; rewrite Hdrag; simpl;
      [|now rewrite Htimers].
    now rewrite forallb_filter_keeps.
  - destruct (isPreviewMode s); simpl; [now rewrite Hdrag, Htimers|].
    destruct (touchTimerRef s); simpl; rewrite Hdrag; simpl;
      [|now rewrite Htimers].
    now rewrite forallb_filter_keeps.
  - destruct (List.find _ (timers s)) as [t|] eqn:Hfind; simpl;
      [|now rewrite Hdrag, Htimers].
    apply List.find_some in Hfind as [Hin _].
    rewrite forallb_forall in Htimers. specialize (Htimers t Hin) as Hjump.
    unfold is_jump in Hjump.
    destruct (timer_callback t); try discriminate. simpl.
    rewrite Hdrag. simpl. split; [|split; reflexivity].
    apply forallb_filter_keeps. now apply forallb_forall.
  - now rewrite Htimers.
Qed.

Lemma run_quiescent (h : host) (evs : list event) :
  forall s,
  quiescent s = true ->
  forallb (fun ev => negb (is_pointer_down ev)) evs = true ->
  quiescent (exec (run h evs) s) = true
  /\ allCards (exec (run h evs) s) = allCards s
  /\ dragState (exec (run h evs) s) = dragState s.
Proof.
  induction evs as [|ev evs IH]; intros s Hq Hevs;
    [split; [exact Hq|split; reflexivity]|].
  simpl in Hevs. apply andb_true_iff in Hevs as [Hev Hevs].
  apply negb_true_iff in Hev.
  destruct (step_quiescent h ev s Hq Hev) as (Hq1 & Hc1 & Hd1).
  rewrite run_cons.
  destruct (IH _ Hq1 Hevs) as (Hq2 & Hc2 & Hd2).
  now rewrite Hc2, Hd2, Hc1, Hd1.
Qed.

(** A touch on a slot of an idle controller arms one long-press timer. *)
Lemma touch_start_arms (h : host) (idx : nat) (x0 y0 : Z) (s : App) :
  isPreviewMode s = false ->
  exec (step h (TouchStart (Some idx) x0 y0)) s
  = with_touchTimerRef (Some (nextTimerId s))
      (with_nextTimerId (S (nextTimerId s))
         (with_timers
            (timers s
             ++ [mkTimer (nextTimerId s) 400
                   (LongPress (allCards s)
                      (currentPage s * ITEMS_PER_PAGE + idx mod 9) x0 y0)])
            (with_dragStartPosRef (x0, y0) s))).
Proof. intros Hp. unfold_handlers. simpl. now rewrite Hp. Qed.

(** While the long press is armed, a touch move inside the threshold
    changes nothing. *)
Lemma touch_move_within (h : host) (cx cy : Z) (s : App) :
  isDraggingRef s = false ->
  exceeds_threshold (fst (dragStartPosRef s)) (snd (dragStartPosRef s)) cx cy
  = false ->
  exec (step h (TouchMove cx cy)) s = s.
Proof.
  unfold exceeds_threshold. intros Hd Hin. unfold_handlers. simpl.
  destruct (isPreviewMode s); simpl; [reflexivity|].
  rewrite Hd. simpl. now rewrite Hin.
Qed.

(** The first touch move beyond the threshold clears the armed timer. *)
Lemma touch_move_beyond (h : host) (cx cy : Z) (id : nat) (s : App) :
  isPreviewMode s = false ->
  isDraggingRef s = false ->
  touchTimerRef s = Some id ->
  exceeds_threshold (fst (dragStartPosRef s)) (snd (dragStartPosRef s)) cx cy
  = true ->
  exec (step h (TouchMove cx cy)) s
  = with_touchTimerRef None
      (with_timers
         (List.filter (fun t => negb (timer_id t =? id)) (timers s)) s).
Proof.
  unfold exceeds_threshold. intros Hp Hd Href Hout. unfold_handlers. simpl.
  rewrite Hp. simpl. rewrite Hd. simpl. rewrite Hout. simpl.
  now rewrite Href.
Qed.

(** On the touch path the claim holds: after a touch on a slot of an idle
    controller, any number of moves inside the threshold and one move
    beyond it, no later event other than a new pointer-down starts a drag
    or touches the collection. *)
Lemma touch_move_cancels_long_press (h : host) (s0 : App) (idx : nat)
  (x0 y0 x1 y1 : Z) (within : list (Z * Z)) (later : list event) :
  quiescent s0 = true ->
  isPreviewMode s0 = false ->
  Forall (fun p => exceeds_threshold x0 y0 (fst p) (snd p) = false) within ->
  exceeds_threshold x0 y0 x1 y1 = true ->
  forallb (fun ev => negb (is_pointer_down ev)) later = true ->
  let s' :=
    exec (run h (TouchStart (Some idx) x0 y0
                 :: map (fun p => TouchMove (fst p) (snd p)) within
                 ++ TouchMove x1 y1 :: later)) s0 in
  isDraggingRef s' = false
  /\ forallb is_jump (timers s') = true
  /\ dragState s' = dragState s0
  /\ allCards s' = allCards s0.
Proof.
  intros Hq Hp Hwithin Hout Hlater s'. subst s'.
  rewrite run_cons, run_app, run_cons.
  rewrite (touch_start_arms h idx x0 y0 s0 Hp).
  set (armed := with_touchTimerRef _ _).
  pose proof Hq as Hq0. unfold quiescent in Hq0.
  apply andb_true_iff in Hq0 as [Hd0 Ht0]. apply negb_true_iff in Hd0.
  assert (Hstay : exec (run h (map (fun p => TouchMove (fst p) (snd p)) within))
                    armed = armed).
  { clear -Hwithin Hd0. induction Hwithin as [|p within Hin _ IH];
      [reflexivity|].
    simpl map. rewrite run_cons, touch_move_within; [exact IH| |];
      [exact Hd0|exact Hin]. }
  rewrite Hstay.
  rewrite (touch_move_beyond h x1 y1 (nextTimerId s0) armed Hp Hd0 eq_refl Hout).
  set (cancelled := with_touchTimerRef None _).
  assert (Hqc : quiescent cancelled = true).
  { unfold quiescent, cancelled, armed. simpl. rewrite Hd0. simpl.
    rewrite List.filter_app, forallb_app. simpl.
    rewrite Nat.eqb_refl. simpl. rewrite andb_true_r.
    now apply forallb_filter_keeps. }
  destruct (run_quiescent h later cancelled Hqc Hlater) as (Hq' & Hc' & Hd').
  unfold quiescent in Hq'. apply andb_true_iff in Hq' as [Hdr Htm].
  apply negb_true_iff in Hdr.
  repeat split; [exact Hdr|exact Htm|now rewrite Hd'|now rewrite Hc'].
Qed.

(** C9 fails on the mouse path.  The container forwards a mouse move to
    [handleMouseMove] only while a drag is active, so a move of 50 pixels
    made after the press and before the long-press timer elapses reaches
    no threshold test: the timer stays pending, and when it elapses the
    drag starts. *)
Theorem mouse_move_leaves_long_press_armed (h : host) :
  let s0 := with_allCards [Some imgA; Some imgB] initialApp in
  let s1 := exec (run h [MouseDown (Some 0) 100 100; MouseMove 150 100]) s0 in
  let s2 := exec (step h (TimerElapsed 1)) s1 in
  exceeds_threshold 100 100 150 100 = true
  /\ touchTimerRef s1 = Some 1
  /\ timers s1 = [mkTimer 1 400 (LongPress (allCards s0) 0 100 100)]
  /\ isDraggingRef s2 = true
  /\ dragState s2 = mkDragState true (Some 0) (Some imgA) 100 100.
Proof.
  repeat split; unfold_handlers; simpl; destruct (can_vibrate h); reflexivity.
Qed.

(** The same gesture made by touch is cancelled. *)
Lemma touch_move_cancels_long_press_example (h : host) :
  let s0 := with_allCards [Some imgA; Some imgB] initialApp in
  let s1 := exec (run h [TouchStart (Some 0) 100 100; TouchMove 150 100]) s0 in
  let s2 := exec (step h (TimerElapsed 1)) s1 in
  touchTimerRef s1 = None
  /\ timers s1 = []
  /\ isDraggingRef s2 = false
  /\ dragState s2 = idleDrag.
Proof. repeat split. Qed.

(** * Further properties of the component *)

(** ** Pages *)

Lemma totalPages_range (cards : list slot) :
  1 <= totalPages cards
  /\ length cards <= 9 * totalPages cards
  /\ (cards <> [] -> 9 * (totalPages cards - 1) < length cards).
Proof.
  unfold totalPages, ITEMS_PER_PAGE.
  pose proof (ceil_div_9_spec (length cards)) as [Hlo Hhi].
  split; [lia|]. split; [lia|].
  intros Hne. assert (0 < length cards) by (destruct cards; simpl; [congruence|lia]).
  lia.
Qed.

(** X1. The page count is at least one, its pages hold every slot, and
    for a collection that is not empty the last page holds at least one
    slot of it. *)
Theorem totalPages_bounds (cards : list slot) :
  1 <= totalPages cards
  /\ length cards <= 9 * totalPages cards
  /\ (cards <> [] -> 9 * (totalPages cards - 1) < length cards).
Proof. apply totalPages_range. Qed.

Lemma totalPages_bounds_witness :
  1 <= totalPages ten
  /\ length ten <= 9 * totalPages ten
  /\ 9 * (totalPages ten - 1) < length ten.
Proof.
  destruct (totalPages_bounds ten) as (H1 & H2 & H3).
  split; [exact H1|]. split; [exact H2|]. apply H3. discriminate.
Defined.

Lemma js_slice_page_length (cards : list slot) (start : Z) :
  length (js_slice cards start (start + 9)) <= 9.
Proof.
  unfold js_slice. rewrite length_take.
  destruct (Z.ltb_spec start 0), (Z.ltb_spec (start + 9) 0); lia.
Qed.

Lemma getCardsForPage_nat (cards : list slot) (idx : nat) :
  getCardsForPage cards (Z.of_nat idx)
  = Returned (take 9 (drop (idx * 9) cards)
              ++ replicate (9 - length (take 9 (drop (idx * 9) cards))) None).
Proof.
  unfold getCardsForPage, ITEMS_PER_PAGE.
  replace (Z.of_nat idx * Z.of_nat 9)%Z with (Z.of_nat (idx * 9)) by lia.
  change (Z.of_nat 9) with 9%Z. rewrite js_slice_page.
  set (pageCards := take 9 (drop (idx * 9) cards)).
  assert (Hlen : length pageCards <= 9).
  { unfold pageCards. rewrite length_take. lia. }
  unfold js_Array_fill_null.
  destruct (Z.ltb_spec (9 - Z.of_nat (length pageCards)) 0) as [Hneg|_]; [lia|].
  now replace (Z.to_nat (9 - Z.of_nat (length pageCards)))
    with (9 - length pageCards) by lia.
Qed.

(** X2. [getCardsForPage] returns nine slots for every integer page
    index, negative ones included, and never throws; from [totalPages] on
    all nine are empty. *)
Theorem getCardsForPage_every_index (cards : list slot) (p : Z) :
  exists page,
    getCardsForPage cards p = Returned page
    /\ length page = 9
    /\ ((Z.of_nat (totalPages cards) <= p)%Z -> page = replicate 9 None).
Proof.
  destruct (Z.ltb_spec p 0) as [Hneg|Hpos].
  - unfold getCardsForPage, ITEMS_PER_PAGE. change (Z.of_nat 9) with 9%Z.
    pose proof (js_slice_page_length cards (p * 9)) as Hlen.
    set (pageCards := js_slice cards (p * 9) (p * 9 + 9)) in *.
    unfold js_Array_fill_null.
    destruct (Z.ltb_spec (9 - Z.of_nat (length pageCards)) 0) as [Hlt|_]; [lia|].
    eexists. split; [reflexivity|]. split.
    + rewrite length_app, length_replicate. lia.
    + pose proof (totalPages_range cards). lia.
  - replace p with (Z.of_nat (Z.to_nat p)) by lia.
    rewrite getCardsForPage_nat. eexists. split; [reflexivity|]. split.
    + rewrite length_app, length_replicate, length_take. lia.
    + intros Hbeyond. pose proof (totalPages_range cards) as (_ & Hcover & _).
      rewrite drop_ge by lia. reflexivity.
Qed.

Lemma getCardsForPage_every_index_witness :
  exists page,
    getCardsForPage ten 2 = Returned page
    /\ length page = 9
    /\ page = replicate 9 None.
Proof.
  destruct (getCardsForPage_every_index ten 2) as (page & Hp & Hl & Hb).
  exists page. split; [exact Hp|]. split; [exact Hl|]. apply Hb.
  vm_compute. discriminate.
Defined.

Lemma pages_concat (n : nat) :
  forall cards : list slot,
  length cards <= 9 * n ->
  concat (map (fun idx => page_or_empty (getCardsForPage cards (Z.of_nat idx)))
            (seq 0 n))
  = cards ++ replicate (9 * n - length cards) None.
Proof.
  induction n as [|n IH]; intros cards Hlen.
  - destruct cards; simpl in *; [reflexivity|lia].
  - rewrite <- cons_seq, <- fmap_S_seq. simpl map.
    rewrite getCardsForPage_nat. simpl page_or_empty. simpl concat.
    change (0 * 9) with 0. rewrite drop_0.
    rewrite <- list_fmap_compose.
    assert (Hshift : (fun idx => page_or_empty
                                   (getCardsForPage cards (Z.of_nat (S idx))))
                     <$> seq 0 n
                     = (fun idx => page_or_empty
                                     (getCardsForPage (drop 9 cards)
                                        (Z.of_nat idx))) <$> seq 0 n).
    { apply list_fmap_ext. intros _ idx _.
      rewrite !getCardsForPage_nat. simpl.
      now rewrite drop_drop. }
    change (map ?f ?l) with (f <$> l).
    unfold compose. rewrite Hshift.
    change (?f <$> ?l) with (map f l).
    rewrite IH by (rewrite length_drop; lia).
    rewrite length_drop, length_take.
    destruct (Nat.le_gt_cases 9 (length cards)) as [Hfull|Hshort].
    + replace (9 - 9 `min` length cards) with 0 by lia.
      simpl (replicate 0 _).
      rewrite app_nil_r, app_assoc, take_drop.
      f_equal. f_equal. lia.
    + rewrite take_ge, drop_ge by lia. rewrite app_nil_l.
      rewrite <- app_assoc, <- replicate_add. f_equal. f_equal. lia.
Qed.

(** X3. The pages handed to the views, from page 0 to the last one, laid
    end to end are the collection itself followed by empty padding: every
    slot is on exactly one page, in order. *)
Theorem pages_partition_collection (cards : list slot) :
  concat (map (fun idx => page_or_empty (getCardsForPage cards (Z.of_nat idx)))
            (seq 0 (totalPages cards)))
  = cards ++ replicate (9 * totalPages cards - length cards) None.
Proof. apply pages_concat. apply totalPages_range. Qed.

(** ** Single upload *)

Lemma single_update_insert (i : nat) (img : image) (prev : list slot) :
  single_update i img prev
  = <[i := Some img]> (prev ++ replicate (S i - length prev) None).
Proof. unfold single_update. now rewrite ensure_length_replicate. Qed.

Lemma single_update_lookups (i : nat) (img : image) (prev : list slot) :
  length (single_update i img prev) = Nat.max (length prev) (S i)
  /\ single_update i img prev !! i = Some (Some img)
  /\ (forall k, k <> i -> k < length prev ->
                single_update i img prev !! k = prev !! k)
  /\ (forall k, length prev <= k -> k < i ->
                single_update i img prev !! k = Some None).
Proof.
  rewrite single_update_insert.
  split; [|split; [|split]].
  - rewrite length_insert, length_app, length_replicate. lia.
  - apply list_lookup_insert_eq. rewrite length_app, length_replicate. lia.
  - intros k Hk Hlt. rewrite list_lookup_insert_ne by congruence.
    now rewrite lookup_app_l.
  - intros k Hge Hlt. rewrite list_lookup_insert_ne by lia.
    rewrite lookup_app_r by exact Hge. apply lookup_replicate_2. lia.
Qed.

(** X4. A single upload into slot [i] writes the image there, pads the
    collection with empty slots up to [i] when it is shorter, never
    shortens it and leaves every other slot as it was. *)
Theorem single_update_writes_one_slot (i : nat) (img : image)
  (prev : list slot) :
  let updated := single_update i img prev in
  length updated = Nat.max (length prev) (S i)
  /\ updated !! i = Some (Some img)
  /\ (forall k, k <> i -> k < length prev -> updated !! k = prev !! k)
  /\ (forall k, length prev <= k -> k < i -> updated !! k = Some None).
Proof. apply single_update_lookups. Qed.

Lemma ends_present_nonnull (l : list slot) :
  Forall (fun c => c <> None) l -> ends_present l = true.
Proof.
  intros Hall. unfold ends_present.
  destruct (last l) as [[v|]|] eqn:Hlast; try reflexivity.
  apply last_Some_elem_of in Hlast. rewrite Forall_forall in Hall.
  now destruct (Hall None Hlast).
Qed.

Lemma single_update_ends_present (i : nat) (img : image) (prev : list slot) :
  ends_present prev = true -> ends_present (single_update i img prev) = true.
Proof.
  intros Hlast.
  pose proof (single_update_lookups i img prev) as (Hlen & Hi & Hold & _).
  unfold ends_present in *. rewrite last_lookup in *. rewrite Hlen.
  destruct (Nat.le_gt_cases (length prev) (S i)) as [Hshort|Hlong].
  - replace (Nat.pred (length prev `max` S i)) with i by lia. now rewrite Hi.
  - replace (Nat.pred (length prev `max` S i)) with (Nat.pred (length prev))
      by lia.
    rewrite Hold by lia. exact Hlast.
Qed.

Lemma apply_mutation_ends_present (m : mutation) (cards : list slot) :
  ends_present cards = true -> ends_present (apply_mutation m cards) = true.
Proof.
  intros Hlast. destruct m as [newPhotos|i img|i j]; simpl.
  - apply ends_present_nonnull, batch_update_present.
  - now apply single_update_ends_present.
  - apply swap_ends_present.
Qed.

(** X5. Batch uploads, single uploads and swaps, in any number and order,
    never leave a trailing empty slot in a collection that had none; in
    particular none arises from the empty collection without a removal. *)
Theorem uploads_and_swaps_keep_last_present (ms : list mutation)
  (cards : list slot) :
  ends_present cards = true ->
  ends_present (foldl (fun acc m => apply_mutation m acc) cards ms) = true.
Proof.
  revert cards. induction ms as [|m ms IH]; intros cards Hlast; [exact Hlast|].
  simpl. apply IH. now apply apply_mutation_ends_present.
Qed.

Lemma uploads_and_swaps_keep_last_present_witness :
  ends_present
    (foldl (fun acc m => apply_mutation m acc) []
       [SingleUpload 4 imgA; BatchUpload [imgB]; SingleUpload 7 imgC;
        Swap 7 12]) = true.
Proof.
  apply (uploads_and_swaps_keep_last_present
           [SingleUpload 4 imgA; BatchUpload [imgB]; SingleUpload 7 imgC;
            Swap 7 12] []).
  reflexivity.
Defined.

(** ** Removal inside the collection *)

Lemma removeCard_currentPage (indexOnPage : Z) (s : App) :
  currentPage (exec (removeCard indexOnPage) s)
  = let updated :=
      remove_update
        (Z.of_nat (currentPage s) * Z.of_nat ITEMS_PER_PAGE + indexOnPage)
        (allCards s) in
    if totalPages updated <=? currentPage s
    then totalPages updated - 1 else currentPage s.
Proof.
  unfold exec, removeCard, bind, get, setAllCards, setCurrentPage, modify, ret.
  simpl. now destruct (_ <=? _).
Qed.

(** X6. Removing a slot inside the collection shortens it by exactly one:
    the slots before it stay in place and every later slot moves one
    position to the left. *)
Theorem removeCard_in_range_shifts_left (indexOnPage : nat) (s : App) :
  let g := currentPage s * ITEMS_PER_PAGE + indexOnPage in
  g < length (allCards s) ->
  let after := allCards (exec (removeCard (Z.of_nat indexOnPage)) s) in
  length after = length (allCards s) - 1
  /\ (forall k, k < g -> after !! k = allCards s !! k)
  /\ (forall k, g <= k -> after !! k = allCards s !! S k).
Proof.
  intros g Hg after. unfold after. rewrite removeCard_allCards.
  replace (Z.of_nat (currentPage s) * Z.of_nat ITEMS_PER_PAGE
           + Z.of_nat indexOnPage)%Z with (Z.of_nat g) by (unfold g; lia).
  rewrite remove_update_in_range. split; [|split].
  - rewrite length_delete by (apply lookup_lt_is_Some_2; exact Hg). lia.
  - intros k Hk. now apply list_lookup_delete_lt.
  - intros k Hk. now apply list_lookup_delete_ge.
Qed.

Lemma removeCard_in_range_shifts_left_witness :
  let s := with_allCards gapped initialApp in
  let after := allCards (exec (removeCard (Z.of_nat 0)) s) in
  length after = length (allCards s) - 1
  /\ (forall k, k < 0 -> after !! k = allCards s !! k)
  /\ (forall k, 0 <= k -> after !! k = allCards s !! S k).
Proof.
  intros s. apply (removeCard_in_range_shifts_left 0 s). simpl. lia.
Defined.

(** X7. After any removal the current page exists: [currentPage] is below
    the page count of the new collection, and it is left alone whenever it
    already was. *)
Theorem removeCard_keeps_page_in_range (indexOnPage : Z) (s : App) :
  let s' := exec (removeCard indexOnPage) s in
  currentPage s' < totalPages (allCards s')
  /\ (if currentPage s <? totalPages (allCards s')
      then currentPage s' = currentPage s
      else currentPage s' = totalPages (allCards s') - 1).
Proof.
  intros s'. unfold s'.
  rewrite removeCard_currentPage, removeCard_allCards. cbv zeta.
  set (updated := remove_update _ _).
  pose proof (totalPages_range updated) as (Hone & _).
  destruct (Nat.leb_spec (totalPages updated) (currentPage s)) as [Hle|Hlt].
  - split; [lia|].
    destruct (Nat.ltb_spec (currentPage s) (totalPages updated)); [lia|].
    reflexivity.
  - split; [exact Hlt|].
    destruct (Nat.ltb_spec (currentPage s) (totalPages updated)); [|lia].
    reflexivity.
Qed.

(** ** The page view *)

Lemma page_of_current (s : App) :
  page_or_empty (getCardsForPage (allCards s) (Z.of_nat (currentPage s)))
  = take 9 (drop (currentPage s * 9) (allCards s))
    ++ replicate
         (9 - length (take 9 (drop (currentPage s * 9) (allCards s)))) None.
Proof. now rewrite getCardsForPage_nat. Qed.

Lemma truthy_image (c : slot) :
  truthy c = true -> exists img, c = Some img /\ img <> EmptyString.
Proof.
  destruct c as [[|ch rest]|]; simpl; try discriminate.
  intros _. eexists. split; [reflexivity|discriminate].
Qed.

Lemma page_lookup_image (cards : list slot) (start i : nat) (img : image) :
  (take 9 (drop start cards)
   ++ replicate (9 - length (take 9 (drop start cards))) None) !! i
  = Some (Some img) ->
  i < 9 /\ cards !! (start + i) = Some (Some img).
Proof.
  intros Hi.
  destruct (Nat.lt_ge_cases i (length (take 9 (drop start cards))))
    as [Hin|Hpad].
  - rewrite lookup_app_l in Hi by exact Hin.
    rewrite length_take in Hin.
    rewrite lookup_take_lt in Hi by lia. rewrite lookup_drop in Hi.
    split; [lia|exact Hi].
  - rewrite lookup_app_r in Hi by exact Hpad.
    apply lookup_replicate in Hi as [Hnone _]. discriminate.
Qed.

Lemma mainPage_lookup (s : App) (i : nat) (v : slot_view) :
  mainPage s !! i = Some v ->
  exists c,
    page_or_empty (getCardsForPage (allCards s) (Z.of_nat (currentPage s))) !! i
    = Some c
    /\ data_slot_index v = currentPage s * 9 + i
    /\ delete_button v
       = truthy c
         && negb (match draggedIndex (dragState s) with
                  | Some d => d =? currentPage s * 9 + i
                  | None => false
                  end)
    /\ shown_image v = (if truthy c then c else None).
Proof.
  unfold mainPage, BinderPage. rewrite list_lookup_imap.
  destruct (_ !! i) as [c|]; simpl; [|discriminate].
  intros Hv. injection Hv as <-. exists c. simpl.
  split; [reflexivity|]. split; [reflexivity|]. split; [|reflexivity].
  now rewrite !andb_true_r.
Qed.

(** X8. The delete button is offered only on a slot of the current page
    that lies inside the collection and holds an image; pressing it calls
    [removeCard] in range, and the collection loses exactly that slot. *)
Theorem delete_button_removes_shown_card (s : App) (i : nat) (v : slot_view) :
  mainPage s !! i = Some v ->
  delete_button v = true ->
  let g := currentPage s * 9 + i in
  exists img,
    allCards s !! g = Some (Some img)
    /\ shown_image v = Some img
    /\ g < length (allCards s)
    /\ allCards (exec (removeCard (Z.of_nat i)) s) = delete g (allCards s).
Proof.
  intros Hv Hbutton g.
  destruct (mainPage_lookup s i v Hv) as (c & Hc & _ & Hdel & Hshown).
  rewrite Hbutton in Hdel. symmetry in Hdel.
  apply andb_true_iff in Hdel as [Htruthy _].
  destruct (truthy_image c Htruthy) as (img & -> & _).
  rewrite page_of_current in Hc.
  apply page_lookup_image in Hc as [Hi Hcard].
  exists img. split; [exact Hcard|].
  split; [now rewrite Hshown, Htruthy|].
  split; [now apply lookup_lt_Some in Hcard|].
  rewrite removeCard_allCards.
  replace (Z.of_nat (currentPage s) * Z.of_nat ITEMS_PER_PAGE + Z.of_nat i)%Z
    with (Z.of_nat g) by (unfold g, ITEMS_PER_PAGE; lia).
  apply remove_update_in_range.
Qed.

Lemma delete_button_removes_shown_card_witness :
  let s := with_allCards gapped initialApp in
  exists img,
    allCards s !! 2 = Some (Some img)
    /\ allCards (exec (removeCard (Z.of_nat 2)) s) = delete 2 (allCards s).
Proof.
  intros s.
  destruct (delete_button_removes_shown_card s 2
              (mkSlotView 2 false (Some imgB) true false true))
    as (img & Hcard & _ & _ & Hdel); [reflexivity|reflexivity|].
  exists img. split; [exact Hcard|exact Hdel].
Defined.

Lemma BinderPage_indices (cards : list slot) (pageIndex : nat)
  (isExporting readOnly onSlotClick : bool) (draggedIndex : option nat) :
  map data_slot_index
    (BinderPage cards pageIndex isExporting readOnly onSlotClick draggedIndex)
  = seq (pageIndex * 9) (length cards).
Proof.
  unfold BinderPage.
  apply list_eq. intros i.
  change (map ?f ?l) with (f <$> l).
  rewrite list_lookup_fmap, list_lookup_imap.
  destruct (Nat.lt_ge_cases i (length cards)) as [Hlt|Hge].
  - destruct (lookup_lt_is_Some_2 cards i Hlt) as [c ->]. simpl.
    symmetry. now apply lookup_seq_lt.
  - rewrite (lookup_ge_None_2 cards i Hge). simpl.
    symmetry. apply lookup_seq_ge. exact Hge.
Qed.

Lemma page_or_empty_length (cards : list slot) (idx : nat) :
  length (page_or_empty (getCardsForPage cards (Z.of_nat idx))) = 9.
Proof.
  rewrite getCardsForPage_nat. simpl.
  rewrite length_app, length_replicate, length_take. lia.
Qed.

(** X9. On the page of the main display the nine slots carry the global
    indices of the current page in order, and the remainder modulo nine
    that the pointer-down listener takes is the position on the page: the
    index the listener rebuilds is the one the slot carries. *)
Theorem mainPage_slot_indices (s : App) :
  map data_slot_index (mainPage s) = seq (currentPage s * 9) 9
  /\ forall i v, mainPage s !! i = Some v ->
       data_slot_index v mod 9 = i
       /\ currentPage s * ITEMS_PER_PAGE + data_slot_index v mod 9
          = data_slot_index v.
Proof.
  split.
  - unfold mainPage. rewrite BinderPage_indices.
    now rewrite page_or_empty_length.
  - intros i v Hv.
    assert (Hi : i < 9).
    { apply lookup_lt_Some in Hv. unfold mainPage, BinderPage in Hv.
      rewrite length_imap, page_or_empty_length in Hv. exact Hv. }
    destruct (mainPage_lookup s i v Hv) as (_ & _ & Hidx & _).
    rewrite Hidx. unfold ITEMS_PER_PAGE.
    replace ((currentPage s * 9 + i) mod 9) with i; [split; reflexivity|].
    rewrite Nat.add_comm, Nat.Div0.mod_add. symmetry. now apply Nat.mod_small.
Qed.

Lemma exportPages_lookup (cards : list slot) (idx : nat) :
  idx < totalPages cards ->
  exportPages cards !! idx
  = Some (BinderPage (page_or_empty (getCardsForPage cards (Z.of_nat idx)))
            idx true false false None).
Proof.
  intros Hidx. unfold exportPages.
  change (map ?f ?l) with (f <$> l).
  rewrite list_lookup_fmap, lookup_seq_lt by exact Hidx. reflexivity.
Qed.

(** X10. The hidden export area holds one view per page, each of nine
    slots, and none of them offers a delete button, an upload hint or a
    click that uploads: the layouts that are rasterized are inert. *)
Theorem exportPages_are_inert (cards : list slot) :
  length (exportPages cards) = totalPages cards
  /\ Forall (fun pg =>
       length pg = 9
       /\ Forall (fun v =>
            delete_button v = false /\ upload_hint v = false
            /\ click_uploads v = false) pg)
       (exportPages cards).
Proof.
  split.
  - unfold exportPages. now rewrite length_map, length_seq.
  - apply Forall_lookup. intros idx pg Hpg.
    assert (Hidx : idx < totalPages cards).
    { apply lookup_lt_Some in Hpg. unfold exportPages in Hpg.
      now rewrite length_map, length_seq in Hpg. }
    rewrite exportPages_lookup in Hpg by exact Hidx. injection Hpg as <-.
    split.
    + unfold BinderPage. now rewrite length_imap, page_or_empty_length.
    + apply Forall_lookup. intros i v Hv. unfold BinderPage in Hv.
      rewrite list_lookup_imap in Hv.
      destruct (_ !! i) as [c|]; simpl in Hv; [|discriminate].
      injection Hv as <-. simpl. rewrite !andb_false_r.
      repeat split; reflexivity.
Qed.

(** ** Replacing one slot from the page *)

Lemma handleSingleUploadChange_allCards (i : nat) (img : image) (s : App) :
  allCards (exec (handleSingleUploadChange i img) s)
  = single_update i img (allCards s).
Proof. reflexivity. Qed.

(** X11. A click on slot [i] of the current page while no drag is active
    opens the file dialog, and the file then chosen is written to the
    global index of that slot: it is what the current page shows at
    position [i], and no other slot of the collection changes. *)
Theorem click_then_choose_fills_slot (s : App) (i : nat) (img : image)
  (uploadIndex : option nat) :
  isDraggingRef s = false ->
  i < 9 ->
  let target := fst (handleSlotClick i s uploadIndex) in
  let s' := exec (onSingleFileChosen target (Some img)) s in
  snd (handleSlotClick i s uploadIndex) = true
  /\ (exists page,
        getCardsForPage (allCards s') (Z.of_nat (currentPage s'))
        = Returned page
        /\ page !! i = Some (Some img))
  /\ (forall k, k <> currentPage s * 9 + i -> k < length (allCards s) ->
        allCards s' !! k = allCards s !! k)
  /\ length (allCards s) <= length (allCards s').
Proof.
  intros Hdrag Hi target s'. subst s' target.
  unfold handleSlotClick. rewrite Hdrag. cbn [negb fst snd].
  unfold onSingleFileChosen. cbn [default from_option id].
  unfold ITEMS_PER_PAGE.
  set (g := currentPage s * 9 + i).
  pose proof (single_update_lookups g img (allCards s))
    as (Hlen & Hg & Hold & _).
  change (currentPage (exec (handleSingleUploadChange g img) s))
    with (currentPage s).
  rewrite handleSingleUploadChange_allCards.
  split; [reflexivity|]. split; [|split].
  - rewrite getCardsForPage_nat. eexists. split; [reflexivity|].
    assert (Hin : i < length (take 9 (drop (currentPage s * 9)
                                        (single_update g img (allCards s))))).
    { rewrite length_take, length_drop, Hlen. unfold g. lia. }
    rewrite lookup_app_l by exact Hin.
    rewrite lookup_take_lt by exact Hi. rewrite lookup_drop. exact Hg.
  - exact Hold.
  - rewrite Hlen. lia.
Qed.

Lemma click_then_choose_fills_slot_witness :
  let s := with_allCards gapped initialApp in
  let s' := exec (onSingleFileChosen (fst (handleSlotClick 1 s None))
                    (Some imgC)) s in
  exists page,
    getCardsForPage (allCards s') (Z.of_nat (currentPage s')) = Returned page
    /\ page !! 1 = Some (Some imgC).
Proof.
  intros s s'.
  destruct (click_then_choose_fills_slot s 1 imgC None) as (_ & Hpage & _);
    [reflexivity|lia|exact Hpage].
Defined.

(** ** Batch upload and the jump to the last page *)

Lemma find_fresh_timer (l : list timer) (t : timer) :
  forallb (fun t' => timer_id t' <? timer_id t) l = true ->
  List.find (fun t' => timer_id t' =? timer_id t) (l ++ [t]) = Some t.
Proof.
  induction l as [|t' l IH]; simpl.
  - now rewrite Nat.eqb_refl.
  - intros H. apply andb_true_iff in H as [Hlt Hl].
    apply Nat.ltb_lt in Hlt.
    destruct (Nat.eqb_spec (timer_id t') (timer_id t)); [lia|]. now apply IH.
Qed.

Lemma filter_fresh_timer (l : list timer) (t : timer) :
  forallb (fun t' => timer_id t' <? timer_id t) l = true ->
  List.filter (fun t' => negb (timer_id t' =? timer_id t)) (l ++ [t]) = l.
Proof.
  induction l as [|t' l IH]; simpl.
  - now rewrite Nat.eqb_refl.
  - intros H. apply andb_true_iff in H as [Hlt Hl].
    apply Nat.ltb_lt in Hlt.
    destruct (Nat.eqb_spec (timer_id t') (timer_id t)); [lia|].
    simpl. now rewrite IH.
Qed.

Lemma length_filter_not_null (l : list slot) :
  length (List.filter not_null l) = length (present_images l).
Proof.
  unfold present_images.
  induction l as [|[v|] l IH]; simpl; [reflexivity| |exact IH].
  now rewrite IH.
Qed.

(** X12. After a batch upload of at least one photo, once its timer has
    elapsed the current page is the last page of the new collection, whose
    length is the number of images that were present plus the number of
    photos uploaded. *)
Theorem batch_upload_jumps_to_last_page (h : host) (newPhotos : list image)
  (s : App) :
  newPhotos <> [] ->
  fresh_timers s = true ->
  let s1 := exec (handleBatchUpload newPhotos) s in
  let s2 := exec (fire h (nextTimerId s)) s1 in
  allCards s2 = batch_update newPhotos (allCards s)
  /\ currentPage s2 = totalPages (allCards s2) - 1
  /\ length (allCards s2)
     = length (present_images (allCards s)) + length newPhotos
  /\ timers s2 = timers s.
Proof.
  intros Hne Hfresh s1 s2.
  destruct newPhotos as [|photo photos]; [congruence|].
  set (newPhotos := photo :: photos) in *.
  set (updated := batch_update newPhotos (allCards s)).
  set (t := mkTimer (nextTimerId s) 100
              (JumpToPage
                 (Nat.max 0 (ceil_div (length updated) ITEMS_PER_PAGE - 1)))).
  assert (Hs1 : s1 = with_allCards updated
                       (with_nextTimerId (S (nextTimerId s))
                          (with_timers (timers s ++ [t]) s))) by reflexivity.
  unfold fresh_timers in Hfresh.
  assert (Hfind : List.find (fun t' => timer_id t' =? nextTimerId s)
                    (timers s1) = Some t).
  { rewrite Hs1. simpl. apply (find_fresh_timer (timers s) t). exact Hfresh. }
  assert (Hs2 : s2 = with_currentPage
                       (Nat.max 0 (ceil_div (length updated) ITEMS_PER_PAGE - 1))
                       (with_timers (timers s) s1)).
  { assert (Htim : timers s1 = timers s ++ [t]) by (now rewrite Hs1).
    unfold s2, exec, fire, bind at 1, get. cbv beta iota. rewrite Hfind.
    unfold bind, clearTimeout, modify, t. cbn [timer_callback run_callback].
    unfold setCurrentPage, modify. cbn [snd]. fold t.
    f_equal. f_equal. rewrite Htim. exact (filter_fresh_timer _ t Hfresh). }
  rewrite Hs2, Hs1.
  cbn [allCards currentPage timers with_currentPage with_timers with_allCards
       with_nextTimerId].
  split; [reflexivity|].
  split; [unfold totalPages; lia|]. split; [|reflexivity].
  unfold updated, batch_update.
  now rewrite length_app, length_map, length_filter_not_null.
Qed.

Lemma batch_upload_jumps_to_last_page_witness :
  let s := with_allCards full20 initialApp in
  let s2 := exec (fire workingHost (nextTimerId s))
              (exec (handleBatchUpload [imgB; imgC]) s) in
  length (allCards s2) = 22 /\ currentPage s2 = 2.
Proof.
  intros s s2.
  destruct (batch_upload_jumps_to_last_page workingHost [imgB; imgC] s)
    as (_ & Hpage & Hlen & _); [discriminate|reflexivity|].
  split; [exact Hlen|exact Hpage].
Defined.

(** ** Page navigation *)

Lemma goToNextPage_state (s : App) :
  exec goToNextPage s
  = with_currentPage
      (Nat.min (totalPages (allCards s) - 1) (currentPage s + 1)) s.
Proof.
  unfold exec, goToNextPage, bind, get, modify. simpl. f_equal.
  pose proof (totalPages_range (allCards s)) as (Hone & _). lia.
Qed.

Lemma goToPrevPage_state (s : App) :
  exec goToPrevPage s = with_currentPage (currentPage s - 1) s.
Proof. unfold exec, goToPrevPage, modify. simpl. f_equal. lia. Qed.

(** X13. The next-page button always lands on an existing page, the
    previous-page button never leaves the range, neither touches the
    collection, and each undoes the other wherever there is a page to go
    to. *)
Theorem page_buttons_stay_in_range (s : App) :
  let tp := totalPages (allCards s) in
  currentPage (exec goToNextPage s) < tp
  /\ currentPage (exec goToPrevPage s) <= currentPage s
  /\ allCards (exec goToNextPage s) = allCards s
  /\ allCards (exec goToPrevPage s) = allCards s
  /\ (currentPage s + 1 < tp ->
      currentPage (exec goToPrevPage (exec goToNextPage s)) = currentPage s)
  /\ (0 < currentPage s -> currentPage s < tp ->
      currentPage (exec goToNextPage (exec goToPrevPage s)) = currentPage s).
Proof.
  intros tp. pose proof (totalPages_range (allCards s)) as (Hone & _).
  rewrite !goToNextPage_state, !goToPrevPage_state. cbn [currentPage allCards
    with_currentPage]. fold tp.
  repeat split; try reflexivity; try lia.
Qed.

Lemma page_buttons_stay_in_range_witness :
  let s := with_currentPage 1 (with_allCards full20 initialApp) in
  currentPage (exec goToPrevPage (exec goToNextPage s)) = currentPage s
  /\ currentPage (exec goToNextPage (exec goToPrevPage s)) = currentPage s.
Proof.
  intros s.
  destruct (page_buttons_stay_in_range s) as (_ & _ & _ & _ & Hnp & Hpn).
  split; [apply Hnp|apply Hpn]; vm_compute; lia.
Defined.

(** ** The preview overlay *)

Lemma preview_step_frame (ev : preview_event) (u : ui) :
  fst (preview_step ev u) = fst u.
Proof.
  destruct u as [s p].
  destruct ev as [cx|cx| |]; simpl; try reflexivity.
  - destruct (touchSwipeStartRef p) as [start|]; [|reflexivity].
    now destruct (start =? 0)%Z.
  - now destruct (0 <? previewPage p).
  - now destruct (previewPage p <? totalPages (allCards s) - 1).
Qed.

Lemma preview_step_page (ev : preview_event) (u : ui) :
  previewPage (snd u) < totalPages (allCards (fst u)) ->
  previewPage (snd (preview_step ev u)) < totalPages (allCards (fst u))
  /\ previewPage (snd (preview_step ev u)) <= previewPage (snd u) + 1
  /\ previewPage (snd u) <= previewPage (snd (preview_step ev u)) + 1.
Proof.
  destruct u as [s p]. simpl. intros Hp.
  destruct ev as [cx|cx| |]; simpl.
  - lia.
  - destruct (touchSwipeStartRef p) as [start|]; simpl; [|lia].
    destruct (start =? 0)%Z; simpl; [lia|].
    destruct (50 <? Z.abs (start - cx))%Z; simpl; [|lia].
    destruct (0 <? start - cx)%Z; simpl.
    + destruct (Nat.ltb_spec (previewPage p) (totalPages (allCards s) - 1));
        simpl; [lia|].
      destruct (start - cx <? 0)%Z; simpl; [|lia].
      destruct (Nat.ltb_spec 0 (previewPage p)); simpl; lia.
    + destruct (start - cx <? 0)%Z; simpl; [|lia].
      destruct (Nat.ltb_spec 0 (previewPage p)); simpl; lia.
  - destruct (Nat.ltb_spec 0 (previewPage p)); simpl; lia.
  - destruct (Nat.ltb_spec (previewPage p) (totalPages (allCards s) - 1));
      simpl; lia.
Qed.

Lemma preview_run_invariant (evs : list preview_event) :
  forall u,
  previewPage (snd u) < totalPages (allCards (fst u)) ->
  fst (preview_run evs u) = fst u
  /\ previewPage (snd (preview_run evs u)) < totalPages (allCards (fst u)).
Proof.
  induction evs as [|ev evs IH]; intros u Hu; [now split|].
  simpl. destruct (preview_step_page ev u Hu) as (Hp & _).
  rewrite <- (preview_step_frame ev u) in Hp.
  destruct (IH _ Hp) as [Hf Hq].
  rewrite Hf, preview_step_frame in *. now split.
Qed.

(** X14. Whatever is done in the preview (swipes and arrow clicks in any
    number and order), one event turns at most one page, and closing the
    preview returns to the editor on an existing page with the collection
    untouched. *)
Theorem preview_session_keeps_page_valid (evs : list preview_event)
  (s : App) (p : preview) :
  currentPage s < totalPages (allCards s) ->
  let u := closePreview (preview_run evs (openPreview (s, p))) in
  allCards (fst u) = allCards s
  /\ isPreviewMode (fst u) = false
  /\ currentPage (fst u) < totalPages (allCards (fst u))
  /\ currentPage (fst u) = previewPage (snd u)
  /\ (evs = [] -> currentPage (fst u) = currentPage s).
Proof.
  intros Hpage u. subst u.
  destruct (preview_run_invariant evs (openPreview (s, p)) Hpage) as [Hf Hq].
  destruct (preview_run evs (openPreview (s, p))) as [s1 p1] eqn:Erun.
  simpl in Hf, Hq. subst s1. simpl.
  repeat split; try assumption.
  intros ->. simpl in Erun. now injection Erun as <-.
Qed.

Lemma preview_session_keeps_page_valid_witness :
  let s := with_allCards full20 initialApp in
  let u := closePreview
             (preview_run [SwipeStart 300; SwipeEnd 100; ArrowNext; ArrowNext]
                (openPreview (s, mkPreview 0 flip_next None))) in
  allCards (fst u) = allCards s
  /\ currentPage (fst u) < totalPages (allCards (fst u)).
Proof.
  intros s u.
  destruct (preview_session_keeps_page_valid
              [SwipeStart 300; SwipeEnd 100; ArrowNext; ArrowNext] s
              (mkPreview 0 flip_next None)) as (Hc & _ & Hp & _).
  - vm_compute. lia.
  - split; [exact Hc|exact Hp].
Defined.

(** X15. A swipe of at most 50 pixels never turns the page, and neither
    does a swipe that starts at coordinate 0, however far it travels; a
    longer swipe to the left turns to the next page when there is one, a
    longer swipe to the right to the previous page when there is one. *)
Theorem swipe_threshold (start stop : Z) (u : ui) :
  let u' := handlePreviewSwipeEnd stop (handlePreviewSwipeStart start u) in
  let page := previewPage (snd u) in
  let tp := totalPages (allCards (fst u)) in
  ((Z.abs (start - stop) <= 50)%Z \/ start = 0%Z ->
     previewPage (snd u') = page)
  /\ ((50 < start - stop)%Z -> start <> 0%Z -> page + 1 < tp ->
      previewPage (snd u') = page + 1)
  /\ ((50 < stop - start)%Z -> start <> 0%Z -> 0 < page ->
      previewPage (snd u') = page - 1).
Proof.
  destruct u as [s p]. simpl.
  split; [|split].
  - intros [Hshort| ->]; [|reflexivity].
    destruct (start =? 0)%Z; [reflexivity|].
    destruct (Z.ltb_spec 50 (Z.abs (start - stop))); [lia|reflexivity].
  - intros Hfar Hne Hnext.
    destruct (Z.eqb_spec start 0); [congruence|].
    destruct (Z.ltb_spec 50 (Z.abs (start - stop))); [|lia].
    destruct (Z.ltb_spec 0 (start - stop)); [|lia].
    destruct (Nat.ltb_spec (previewPage p) (totalPages (allCards s) - 1));
      [reflexivity|lia].
  - intros Hfar Hne Hprev.
    destruct (Z.eqb_spec start 0); [congruence|].
    destruct (Z.ltb_spec 50 (Z.abs (start - stop))); [|lia].
    destruct (Z.ltb_spec 0 (start - stop)); [lia|]. simpl.
    destruct (Z.ltb_spec (start - stop) 0); [|lia].
    destruct (Nat.ltb_spec 0 (previewPage p)); [reflexivity|lia].
Qed.

Lemma swipe_threshold_witness :
  let u := (with_allCards full20 initialApp, mkPreview 1 flip_next None) in
  previewPage (snd (handlePreviewSwipeEnd 260 (handlePreviewSwipeStart 300 u)))
  = 1
  /\ previewPage (snd (handlePreviewSwipeEnd 900 (handlePreviewSwipeStart 0 u)))
     = 1
  /\ previewPage (snd (handlePreviewSwipeEnd 100 (handlePreviewSwipeStart 300 u)))
     = 2
  /\ previewPage (snd (handlePreviewSwipeEnd 300 (handlePreviewSwipeStart 100 u)))
     = 0.
Proof.
  intros u.
  destruct (swipe_threshold 300 260 u) as (H1 & _ & _).
  destruct (swipe_threshold 0 900 u) as (H2 & _ & _).
  destruct (swipe_threshold 300 100 u) as (_ & H3 & _).
  destruct (swipe_threshold 100 300 u) as (_ & _ & H4).
  split; [apply H1; left; vm_compute; discriminate|].
  split; [apply H2; now right|].
  split; [apply H3; [reflexivity|discriminate|vm_compute; lia]|].
  apply H4; [reflexivity|discriminate|simpl; lia].
Defined.

(** ** More on the drag controller *)




Lemma pointer_down_arms (h : host) (d : device) (g : nat) (x0 y0 : Z)
  (s : App) :
  isPreviewMode s = false ->
  exec (step h (pointer_down d g x0 y0)) s
  = with_touchTimerRef (Some (nextTimerId s))
      (with_nextTimerId (S (nextTimerId s))
         (with_timers
            (timers s
             ++ [mkTimer (nextTimerId s) 400
                   (LongPress (allCards s)
                      (currentPage s * ITEMS_PER_PAGE + g mod 9) x0 y0)])
            (with_dragStartPosRef (x0, y0) s))).
Proof. intros Hp. destruct d; unfold_handlers; simpl; now rewrite Hp. Qed.

Lemma forallb_filter_out_id (id0 : nat) (l : list timer) :
  forallb (fun t => is_jump t || (timer_id t =? id0)) l = true ->
  forallb is_jump (List.filter (fun t => negb (timer_id t =? id0)) l) = true.
Proof.
  induction l as [|t l IH]; simpl; [reflexivity|].
  intros H. apply andb_true_iff in H as [Ht Hl].
  destruct (timer_id t =? id0); simpl; [now apply IH|].
  rewrite orb_false_r in Ht. rewrite Ht. now apply IH.
Qed.

Lemma forallb_jump_weaken (id0 : nat) (l : list timer) :
  forallb is_jump l = true ->
  forallb (fun t => is_jump t || (timer_id t =? id0)) l = true.
Proof.
  induction l as [|t l IH]; simpl; [reflexivity|].
  intros H. apply andb_true_iff in H as [Ht Hl]. rewrite Ht. now apply IH.
Qed.

Lemma clearTouchTimer_pressed (id0 : nat) (cards : list slot)
  (ds : DragState) (s : App) :
  pressed id0 cards ds s ->
  quiescent (exec clearTouchTimer s) = true
  /\ pressed id0 cards ds (exec clearTouchTimer s).
Proof.
  intros (Hd & Hp & Hall & Href & Hc & Hds).
  unfold exec, clearTouchTimer, bind, get, clearTimeout, modify, ret,
    quiescent, pressed.
  simpl. destruct (touchTimerRef s) as [id|] eqn:Eref; simpl; rewrite Hd; simpl.
  - assert (Hjump : forallb is_jump
                      (List.filter (fun t => negb (timer_id t =? id))
                         (timers s)) = true).
    { destruct Href as [Hid|Hj].
      - injection Hid as ->. now apply forallb_filter_out_id.
      - now apply forallb_filter_keeps. }
    rewrite Hjump. repeat split; auto.
    now apply forallb_jump_weaken.
  - destruct Href as [Hid|Hj]; [discriminate|].
    rewrite Hj. repeat split; auto.
Qed.

Lemma move_pressed (h : host) (d : device) (p : Z * Z) (id0 : nat)
  (cards : list slot) (ds : DragState) (s : App) :
  pressed id0 cards ds s ->
  pressed id0 cards ds (exec (step h (pointer_move d p)) s).
Proof.
  intros Hpr. pose proof Hpr as (Hd & Hp & Hall & Href & Hc & Hds).
  destruct d; simpl.
  - unfold exec, step, handleTouchMove, moveDrag, bind at 1, get.
    cbv beta iota. rewrite Hp. unfold bind at 1. cbv beta iota.
    rewrite Hd. cbv zeta.
    destruct (_ || _); [|exact Hpr].
    now apply clearTouchTimer_pressed.
  - unfold exec, step, bind at 1, get. cbv beta iota. rewrite Hd. exact Hpr.
Qed.

Lemma moves_pressed (h : host) (d : device) (moves : list (Z * Z))
  (id0 : nat) (cards : list slot) (ds : DragState) :
  forall s,
  pressed id0 cards ds s ->
  pressed id0 cards ds (exec (run h (map (pointer_move d) moves)) s).
Proof.
  induction moves as [|p moves IH]; intros s Hpr; [exact Hpr|].
  simpl map. rewrite run_cons. apply IH. now apply move_pressed.
Qed.

Lemma release_pressed (h : host) (d : device) (cx cy : Z) (id0 : nat)
  (cards : list slot) (ds : DragState) (s : App) :
  pressed id0 cards ds s ->
  quiescent (exec (step h (pointer_up d cx cy)) s) = true
  /\ allCards (exec (step h (pointer_up d cx cy)) s) = cards
  /\ dragState (exec (step h (pointer_up d cx cy)) s) = ds.
Proof.
  intros Hpr. pose proof Hpr as (Hd & Hp & _).
  destruct (clearTouchTimer_pressed id0 cards ds s Hpr)
    as (Hq & _ & _ & _ & _ & Hc & Hds).
  assert (E : exec (step h (pointer_up d cx cy)) s = exec clearTouchTimer s).
  { destruct d; simpl; unfold exec, endDrag, bind at 1, get; cbv beta iota;
      rewrite Hp, Hd; unfold bind, ret;
      destruct (clearTouchTimer s) as [[[]|e] s1]; reflexivity. }
  rewrite E. now split.
Qed.

Lemma pointer_release_delivered (d : device) (onDeleteButton : bool)
  (cx cy : Z) :
  (d = Touch -> onDeleteButton = false) ->
  pointer_release d onDeleteButton cx cy = pointer_up d cx cy.
Proof. destruct d; simpl; [intros ->|]; reflexivity. Qed.

(** X17. A press that is released before the long-press timer elapses
    never starts a drag, with the mouse and with a touch that did not
    begin on the delete button, whatever moves lie between: the release
    reaches [endDrag], which clears the timer, so nothing that follows
    short of a new press sets the drag state or touches the collection.
    (The release of a touch that began on the delete button is stopped by
    the button and is not covered: see
    [touch_release_on_delete_button_keeps_timer].) *)
Theorem press_and_release_never_drags (h : host) (d : device)
  (onDeleteButton : bool) (g : nat)
  (x0 y0 x1 y1 : Z) (moves : list (Z * Z)) (later : list event) (s : App) :
  quiescent s = true ->
  isPreviewMode s = false ->
  (d = Touch -> onDeleteButton = false) ->
  forallb (fun ev => negb (is_pointer_down ev)) later = true ->
  let s' :=
    exec (run h (pointer_down d g x0 y0
                 :: map (pointer_move d) moves
                 ++ pointer_release d onDeleteButton x1 y1 :: later)) s in
  isDraggingRef s' = false
  /\ forallb is_jump (timers s') = true
  /\ dragState s' = dragState s
  /\ allCards s' = allCards s.
Proof.
  intros Hq Hp Hdelivered Hlater s'. subst s'.
  rewrite (pointer_release_delivered d onDeleteButton x1 y1 Hdelivered).
  rewrite run_cons, run_app, run_cons.
  rewrite (pointer_down_arms h d g x0 y0 s Hp).
  set (armed := with_touchTimerRef _ _).
  unfold quiescent in Hq. apply andb_true_iff in Hq as [Hd Hj].
  apply negb_true_iff in Hd.
  assert (Hpr : pressed (nextTimerId s) (allCards s) (dragState s) armed).
  { unfold pressed, armed. simpl. repeat split; auto.
    rewrite forallb_app. simpl. rewrite Nat.eqb_refl. simpl.
    rewrite andb_true_r. now apply forallb_jump_weaken. }
  apply (moves_pressed h d moves) in Hpr.
  destruct (release_pressed h d x1 y1 _ _ _ _ Hpr) as (Hq1 & Hc1 & Hd1).
  destruct (run_quiescent h later _ Hq1 Hlater) as (Hq2 & Hc2 & Hd2).
  unfold quiescent in Hq2. apply andb_true_iff in Hq2 as [Hdr Htm].
  apply negb_true_iff in Hdr.
  repeat split; [exact Hdr|exact Htm|now rewrite Hd2|now rewrite Hc2].
Qed.

Lemma press_and_release_never_drags_witness :
  let s := with_allCards gapped initialApp in
  let s' :=
    exec (run workingHost
            (pointer_down Touch 0 100 100
             :: map (pointer_move Touch) [(104, 100)%Z]
             ++ pointer_release Touch false 104 100 :: [TimerElapsed 1])) s in
  isDraggingRef s' = false /\ allCards s' = allCards s.
Proof.
  intros s s'.
  destruct (press_and_release_never_drags workingHost Touch false 0
              100 100 104 100 [(104, 100)%Z] [TimerElapsed 1] s)
    as (Hd & _ & _ & Hc);
    [reflexivity|reflexivity|reflexivity|reflexivity|].
  split; [exact Hd|exact Hc].
Defined.

Lemma filter_all_fresh (id : nat) (l : list timer) :
  forallb (fun t => timer_id t <? id) l = true ->
  List.filter (fun t => negb (timer_id t =? id)) l = l.
Proof.
  induction l as [|t l IH]; simpl; [reflexivity|].
  intros H. apply andb_true_iff in H as [Hlt Hl]. apply Nat.ltb_lt in Hlt.
  destruct (Nat.eqb_spec (timer_id t) id); [lia|]. simpl. now rewrite IH.
Qed.

Lemma forallb_fresh_succ (id : nat) (l : list timer) :
  forallb (fun t => timer_id t <? id) l = true ->
  forallb (fun t => timer_id t <? S id) l = true.
Proof.
  induction l as [|t l IH]; simpl; [reflexivity|].
  intros H. apply andb_true_iff in H as [Hlt Hl]. apply Nat.ltb_lt in Hlt.
  rewrite IH by exact Hl.
  destruct (Nat.ltb_spec (timer_id t) (S id)); [reflexivity|lia].
Qed.

Lemma run_nil (h : host) (s : App) : exec (run h []) s = s.
Proof. reflexivity. Qed.

(** The youngest timer elapses: its closure runs on the state without it. *)
Lemma fire_fresh (h : host) (l : list timer) (t : timer) (s : App) :
  timers s = l ++ [t] ->
  forallb (fun t' => timer_id t' <? timer_id t) l = true ->
  exec (step h (TimerElapsed (timer_id t))) s
  = exec (run_callback h (timer_callback t)) (with_timers l s).
Proof.
  intros Htimers Hfresh.
  unfold exec, step, fire, bind at 1, get. cbv beta iota.
  rewrite Htimers, (find_fresh_timer l t Hfresh).
  unfold bind at 1, clearTimeout, modify. cbv beta iota.
  now rewrite Htimers, (filter_fresh_timer l t Hfresh).
Qed.

Lemma long_press_starts_drag (h : host) (d : device) (slotIndex : nat)
  (x0 y0 : Z) (s : App) :
  isPreviewMode s = false ->
  fresh_timers s = true ->
  let id := nextTimerId s in
  let g := currentPage s * ITEMS_PER_PAGE + slotIndex mod 9 in
  let s2 := exec (run h [pointer_down d slotIndex x0 y0; TimerElapsed id]) s in
  dragging id g (allCards s) (timers s) s2
  /\ dragState s2
     = mkDragState true (Some g) (or_null (allCards s !! g)) x0 y0.
Proof.
  intros Hp Hfresh id g s2. subst s2.
  rewrite run_cons, (pointer_down_arms h d slotIndex x0 y0 s Hp), run_cons,
    run_nil.
  fold id g.
  set (t := mkTimer id 400 (LongPress (allCards s) g x0 y0)).
  set (armed := with_touchTimerRef _ _).
  unfold fresh_timers in Hfresh. fold id in Hfresh.
  change (TimerElapsed id) with (TimerElapsed (timer_id t)).
  rewrite (fire_fresh h (timers s) t armed eq_refl Hfresh).
  subst t. cbn [timer_callback run_callback].
  unfold dragging, exec, bind, modify, emit, setDragState, ret.
  destruct (can_vibrate h); simpl; repeat split; auto.
Qed.

Lemma move_dragging (h : host) (d : device) (p : Z * Z) (id g : nat)
  (cards : list slot) (pending : list timer) (s : App) :
  dragging id g cards pending s ->
  dragging id g cards pending (exec (step h (pointer_move d p)) s)
  /\ x (dragState (exec (step h (pointer_move d p)) s)) = fst p
  /\ y (dragState (exec (step h (pointer_move d p)) s)) = snd p
  /\ draggedData (dragState (exec (step h (pointer_move d p)) s))
     = draggedData (dragState s).
Proof.
  intros (Hd & Hp & Ht & Hn & Hr & Hc & Hdr & Hi).
  unfold dragging.
  destruct d; unfold_handlers; simpl; rewrite ?Hd; simpl; rewrite ?Hp; simpl;
    rewrite ?Hd; simpl; repeat split; auto.
Qed.

Lemma moves_dragging (h : host) (d : device) (moves : list (Z * Z))
  (id g : nat) (cards : list slot) (pending : list timer) :
  forall s,
  dragging id g cards pending s ->
  dragging id g cards pending (exec (run h (map (pointer_move d) moves)) s).
Proof.
  induction moves as [|p moves IH]; intros s Hdr; [exact Hdr|].
  simpl map. rewrite run_cons. apply IH. now apply move_dragging.
Qed.

Lemma release_commits (h : host) (d : device) (x1 y1 : Z) (id g : nat)
  (cards : list slot) (pending : list timer) (s : App) :
  dragging id g cards pending s ->
  forallb (fun t => timer_id t <? id) pending = true ->
  let s3 := exec (run h [pointer_up d x1 y1; TimerElapsed (S id)]) s in
  allCards s3
  = match slotAtPoint h x1 y1 with
    | Some target => if target =? g then cards else swap_update g target cards
    | None => cards
    end
  /\ dragState s3 = idleDrag
  /\ isDraggingRef s3 = false
  /\ timers s3 = pending.
Proof.
  intros (Hd & Hp & Ht & Hn & Hr & Hc & Hdr & Hi) Hfresh s3. subst s3.
  set (t := mkTimer (S id) 50 (HitTest x1 y1 (Some g))).
  assert (Hup : exists released,
             exec (step h (pointer_up d x1 y1)) s = released
             /\ timers released = pending ++ [t]
             /\ allCards released = cards
             /\ isDraggingRef released = false).
  { eexists. split; [reflexivity|].
    destruct d; unfold_handlers; simpl; rewrite Hp; simpl; rewrite Hr; simpl;
      rewrite Hd; simpl; rewrite Ht, Hn, Hi;
      rewrite (filter_all_fresh id pending Hfresh); repeat split; auto. }
  destruct Hup as (released & Eup & Htimers & Hcards & Hdrag).
  rewrite run_cons, Eup, run_cons, run_nil.
  pose proof (forallb_fresh_succ id pending Hfresh) as Hfresh'.
  change (TimerElapsed (S id)) with (TimerElapsed (timer_id t)).
  rewrite (fire_fresh h pending t released Htimers Hfresh').
  subst t. cbn [timer_callback run_callback].
  unfold exec, bind, modify, setAllCards, setDragState, ret.
  destruct (slotAtPoint h x1 y1) as [target|]; simpl;
    [destruct (target =? g); simpl|]; rewrite ?Hcards; repeat split; auto.
Qed.

(** X18. A long press followed by a release commits a swap.  From an idle
    controller, a press on a slot of the current page (with the mouse, or
    with a touch that did not begin on the delete button) that is held
    until the timer elapses starts a drag carrying that slot's image;
    moves only update the drag state; on release, once the settle timer
    elapses, the pressed slot and the slot under the release point are
    swapped, unless there is no slot there or it is the pressed one, in
    which case the collection is unchanged.  Either way the drag state is
    reset and the pending timers are those that were pending before. *)
Theorem long_press_drag_commits_swap (h : host) (d : device)
  (onDeleteButton : bool)
  (slotIndex : nat) (x0 y0 x1 y1 : Z) (moves : list (Z * Z)) (s : App) :
  isPreviewMode s = false ->
  fresh_timers s = true ->
  (d = Touch -> onDeleteButton = false) ->
  let id := nextTimerId s in
  let g := currentPage s * ITEMS_PER_PAGE + slotIndex mod 9 in
  let held := exec (run h [pointer_down d slotIndex x0 y0; TimerElapsed id]) s in
  let s' :=
    exec (run h (map (pointer_move d) moves
                 ++ [pointer_release d onDeleteButton x1 y1;
                     TimerElapsed (S id)])) held in
  dragState held
  = mkDragState true (Some g) (or_null (allCards s !! g)) x0 y0
  /\ allCards held = allCards s
  /\ allCards s'
     = match slotAtPoint h x1 y1 with
       | Some target =>
           if target =? g then allCards s
           else swap_update g target (allCards s)
       | None => allCards s
       end
  /\ dragState s' = idleDrag
  /\ isDraggingRef s' = false
  /\ timers s' = timers s.
Proof.
  intros Hp Hfresh Hdelivered id g held s'.
  destruct (long_press_starts_drag h d slotIndex x0 y0 s Hp Hfresh)
    as (Hdragging & Hstate).
  fold id g held in Hdragging, Hstate.
  split; [exact Hstate|].
  split; [now destruct Hdragging as (_ & _ & _ & _ & _ & Hc & _)|].
  subst s'.
  rewrite (pointer_release_delivered d onDeleteButton x1 y1 Hdelivered).
  rewrite run_app.
  apply (moves_dragging h d moves) in Hdragging.
  now apply (release_commits h d x1 y1 id g).
Qed.

Lemma long_press_drag_commits_swap_witness :
  let h := mkHost true (fun el => Returned el) (fun cv => Returned imgA) []
             (fun _ _ => Some 0) false in
  let s := with_allCards gapped initialApp in
  let held := exec (run h [pointer_down Touch 2 10 10; TimerElapsed 1]) s in
  let s' :=
    exec (run h (map (pointer_move Touch) [(20, 30)%Z]
                 ++ [pointer_release Touch false 20 30; TimerElapsed 2]))
      held in
  allCards s' = swap_update 2 0 gapped /\ dragState s' = idleDrag.
Proof.
  intros h s held s'.
  destruct (long_press_drag_commits_swap h Touch false 2 10 10 20 30
              [(20, 30)%Z] s)
    as (_ & _ & Hc & Hd & _); [reflexivity|reflexivity|reflexivity|].
  split; [exact Hc|exact Hd].
Defined.

(** The release of a touch that began on the delete button never reaches
    [endDrag]: the long-press timer stays armed, and when it elapses the
    drag starts although the finger has been lifted. *)
Lemma touch_release_on_delete_button_keeps_timer (h : host)
  (slotIndex : nat) (x0 y0 x1 y1 : Z) (s : App) :
  isPreviewMode s = false ->
  fresh_timers s = true ->
  let id := nextTimerId s in
  let released :=
    exec (run h [pointer_down Touch slotIndex x0 y0;
                 pointer_release Touch true x1 y1]) s in
  touchTimerRef released = Some id
  /\ isDraggingRef (exec (step h (TimerElapsed id)) released) = true
  /\ isDragging (dragState (exec (step h (TimerElapsed id)) released)) = true.
Proof.
  intros Hp Hfresh id released.
  destruct (long_press_starts_drag h Touch slotIndex x0 y0 s Hp Hfresh)
    as ((Hd & _ & _ & _ & Href & _ & Hdr & _) & _).
  fold id in Hd, Href, Hdr.
  assert (E : released = exec (step h (pointer_down Touch slotIndex x0 y0)) s).
  { unfold released. now rewrite !run_cons, run_nil. }
  rewrite !run_cons, run_nil in Hd, Href, Hdr. rewrite <- E in Hd, Href, Hdr.
  split; [|split; assumption].
  rewrite E, (pointer_down_arms h Touch slotIndex x0 y0 s Hp). reflexivity.
Qed.

(** ** More on the export *)

Lemma mounted_from_step (h : host) (i n : nat) :
  mounted_from h i (S n)
  = match exportRefs h !! i with
    | Some (Some el) => el :: mounted_from h (S i) n
    | _ => mounted_from h (S i) n
    end.
Proof.
  unfold mounted_from.
  destruct (exportRefs h !! i) as [ref|] eqn:Href.
  - rewrite (drop_S _ _ _ Href). simpl. now destruct ref.
  - apply lookup_ge_None_1 in Href.
    rewrite (drop_ge _ i), (drop_ge _ (S i)) by lia. now rewrite !take_nil.
Qed.

(** The loop over any ref array: when every mounted layout in its range
    rasterizes, it requests exactly those, in page order, and returns
    their images. *)
Lemma export_loop_mounted (h : host) (n : nat) :
  forall i images s,
  Forall (fun el => is_thrown (rasterize h el) = false) (mounted_from h i n) ->
  export_loop h n i images s
  = (Returned (images ++ omap (png_of h) (mounted_from h i n)),
     with_effects (effects s ++ map request (mounted_from h i n)) s).
Proof.
  induction n as [|n IH]; intros i images s Hok.
  - unfold mounted_from. simpl. unfold ret.
    now rewrite app_nil_r, with_effects_same.
  - rewrite mounted_from_step in *.
    destruct (exportRefs h !! i) as [[el|]|] eqn:Href.
    + apply Forall_cons in Hok as [Hel Hrest].
      rewrite (export_loop_step_mounted h n i images el s Href).
      simpl. unfold png_of at 1.
      destruct (rasterize h el) as [png|e]; [|discriminate].
      rewrite IH by exact Hrest.
      rewrite with_effects_app. now rewrite <- app_assoc.
    + rewrite export_loop_step_skipped by (intros el; congruence).
      now apply IH.
    + rewrite export_loop_step_skipped by (intros el; congruence).
      now apply IH.
Qed.

(** The loop stops at the first layout whose rasterization throws. *)
Lemma export_loop_abort (h : host) (bad : element) (e : exn) (k : nat) :
  forall i n images s,
  k < n ->
  exportRefs h !! (i + k) = Some (Some bad) ->
  rasterize h bad = Thrown e ->
  Forall (fun el => is_thrown (rasterize h el) = false) (mounted_from h i k) ->
  export_loop h n i images s
  = (Thrown e,
     with_effects (effects s ++ map request (mounted_from h i k ++ [bad])) s).
Proof.
  induction k as [|k IH]; intros i n images s Hk Href Hbad Hok;
    (destruct n as [|n]; [lia|]).
  - rewrite Nat.add_0_r in Href.
    rewrite (export_loop_step_mounted h n i images bad s Href), Hbad.
    reflexivity.
  - rewrite mounted_from_step in *.
    replace (i + S k) with (S i + k) in Href by lia.
    destruct (exportRefs h !! i) as [[el|]|] eqn:Hi.
    + apply Forall_cons in Hok as [Hel Hrest].
      rewrite (export_loop_step_mounted h n i images el s Hi).
      destruct (rasterize h el) as [png|e']; [|discriminate].
      rewrite (IH (S i) n _ _ ltac:(lia) Href Hbad Hrest).
      now rewrite with_effects_app.
    + rewrite export_loop_step_skipped by (intros el; congruence).
      apply IH; [lia|assumption..].
    + rewrite export_loop_step_skipped by (intros el; congruence).
      apply IH; [lia|assumption..].
Qed.

Lemma length_omap_le {A B} (f : A -> option B) (l : list A) :
  length (omap f l) <= length l.
Proof.
  induction l as [|a l IH]; simpl; [lia|].
  unfold omap in IH. destruct (f a); simpl; lia.
Qed.

Lemma mounted_from_length (h : host) (i n : nat) :
  length (mounted_from h i n) <= n.
Proof.
  unfold mounted_from.
  pose proof (length_omap_le id (take n (drop i (exportRefs h)))) as Hle.
  rewrite length_take in Hle. lia.
Qed.

(** X19. An export whose mounted layouts all rasterize sets an image list
    with one image per mounted layout of the pages, in page order, after
    requesting exactly those layouts one after the other: the list never
    has more entries than there are pages. *)
Theorem export_images_match_mounted_pages (h : host) (s : App) :
  html2canvas_loaded h = true ->
  allCards s <> [] ->
  let mounted := mounted_from h 0 (totalPages (allCards s)) in
  Forall (fun el => is_thrown (rasterize h el) = false) mounted ->
  let s' := exec (handleGenerateAll h) s in
  Forall2 (fun el png => rasterize h el = Returned png) mounted
    (generatedImages s')
  /\ length (generatedImages s') <= totalPages (allCards s)
  /\ effects s'
     = effects s ++ [Settle 800] ++ map request mounted
       ++ [SetGeneratedImages (generatedImages s')].
Proof.
  intros Hloaded Hne mounted Hok s'.
  pose proof (handleGenerateAll_run h s Hloaded Hne) as Hrun.
  rewrite (export_loop_mounted h _ 0 [] (settled s) Hok) in Hrun.
  fold mounted in Hrun. rewrite app_nil_l in Hrun.
  assert (Eimg : generatedImages s' = omap (png_of h) mounted).
  { unfold s', exec. now rewrite Hrun. }
  pose proof (png_of_success h mounted Hok) as Hpng.
  rewrite Eimg. split; [exact Hpng|]. split.
  - rewrite <- (Forall2_length _ _ _ Hpng). apply mounted_from_length.
  - unfold s', exec. rewrite Hrun. simpl. now rewrite <- !app_assoc.
Qed.

Lemma export_images_match_mounted_pages_witness :
  let s := with_allCards ten initialApp in
  let s' := exec (handleGenerateAll unmountedHost) s in
  generatedImages s' = [imgA]
  /\ length (generatedImages s') <= totalPages (allCards s).
Proof.
  intros s s'.
  destruct (export_images_match_mounted_pages unmountedHost s)
    as (_ & Hlen & _); [reflexivity|discriminate|repeat constructor|].
  split; [reflexivity|exact Hlen].
Defined.

(** X20. An export stops at the first layout whose rasterization throws:
    the layouts mounted before it are requested in page order, then the
    failing one, and no later page is requested; the error logged is the
    one of that layout and the image list is not set. *)
Theorem export_stops_at_first_failure (h : host) (s : App) (k : nat)
  (bad : element) (e : exn) :
  html2canvas_loaded h = true ->
  allCards s <> [] ->
  k < totalPages (allCards s) ->
  exportRefs h !! k = Some (Some bad) ->
  rasterize h bad = Thrown e ->
  Forall (fun el => is_thrown (rasterize h el) = false) (mounted_from h 0 k) ->
  let s' := exec (handleGenerateAll h) s in
  effects s'
  = effects s ++ [Settle 800] ++ map request (mounted_from h 0 k ++ [bad])
    ++ [ConsoleError e; Alert ExportFailed]
  /\ generatedImages s' = generatedImages s
  /\ isGenerating s' = false.
Proof.
  intros Hloaded Hne Hk Href Hbad Hok s'.
  pose proof (handleGenerateAll_run h s Hloaded Hne) as Hrun.
  rewrite (export_loop_abort h bad e k 0 _ [] (settled s) Hk Href Hbad Hok)
    in Hrun.
  unfold s', exec. rewrite Hrun. simpl.
  split; [now rewrite <- !app_assoc|]. now split.
Qed.

Lemma export_stops_at_first_failure_witness :
  let s := with_allCards nineteen initialApp in
  let s' := exec (handleGenerateAll failingHost) s in
  effects s'
  = [Settle 800; Html2canvas 0 2; Html2canvas 1 2;
     ConsoleError (Rejected "tainted canvas"); Alert ExportFailed]
  /\ generatedImages s' = [].
Proof.
  intros s s'.
  destruct (export_stops_at_first_failure failingHost s 1 1
              (Rejected "tainted canvas")) as (Heff & Himg & _);
    [reflexivity|discriminate|vm_compute; lia|reflexivity|reflexivity
    |repeat constructor|].
  split; [exact Heff|exact Himg].
Defined.

(** X21. An export never throws and never touches the collection, the
    current page, the drag state or the timers.  When the rasterizer is
    not loaded or the collection is empty it does nothing at all but show
    one notice; otherwise [isGenerating] is cleared at the end, whether
    the export succeeded or not. *)
Theorem export_frame (h : host) (s : App) :
  let s' := exec (handleGenerateAll h) s in
  result (handleGenerateAll h) s = Returned tt
  /\ allCards s' = allCards s
  /\ currentPage s' = currentPage s
  /\ dragState s' = dragState s
  /\ timers s' = timers s
  /\ (if html2canvas_loaded h && negb (length (allCards s) =? 0)
      then isGenerating s' = false
      else exists n, s' = with_effects (effects s ++ [Alert n]) s).
Proof.
  intros s'. subst s'.
  destruct (html2canvas_loaded h) eqn:Hloaded.
  2:{ unfold exec, result, handleGenerateAll, bind, get. rewrite Hloaded.
      simpl. repeat split. now exists StillInitialising. }
  destruct (allCards s) as [|c cards] eqn:Ecards.
  { unfold exec, result, handleGenerateAll, bind, get.
    rewrite Hloaded, Ecards. simpl. repeat split; auto.
    now exists AddImagesFirst. }
  assert (Hne : allCards s <> []) by congruence.
  rewrite <- Ecards.
  replace (negb (length (allCards s) =? 0)) with true
    by (rewrite Ecards; reflexivity).
  pose proof (handleGenerateAll_run h s Hloaded Hne) as Hrun.
  destruct (export_loop_state h (totalPages (allCards s)) 0 [] (settled s))
    as (req & Hstate & _).
  set (loop := export_loop h (totalPages (allCards s)) 0 [] (settled s)) in *.
  clearbody loop. destruct loop as [[images|e] s2];
    cbn [snd] in Hstate; subst s2; unfold exec, result; rewrite Hrun;
    repeat split.
Qed.

(** ** More on the swap *)

Lemma insert_of_lookup_perm (l : list slot) (j : nat) (b c : slot) :
  l !! j = Some b -> Permutation (b :: <[j := c]> l) (c :: l).
Proof.
  revert j. induction l as [|a l IH]; intros [|j] Hj; simpl in *;
    try discriminate.
  - injection Hj as ->. apply perm_swap.
  - rewrite (perm_swap a b). rewrite (IH j Hj). apply perm_swap.
Qed.

Lemma exchange_perm (l : list slot) :
  forall i j a b,
  l !! i = Some a -> l !! j = Some b ->
  Permutation (<[j := a]> (<[i := b]> l)) l.
Proof.
  induction l as [|c l IH]; intros [|i] [|j] a b Hi Hj; simpl in *;
    try discriminate.
  - injection Hi as ->. injection Hj as ->. reflexivity.
  - injection Hi as ->. now apply insert_of_lookup_perm.
  - injection Hj as ->. now apply insert_of_lookup_perm.
  - apply perm_skip. now apply IH.
Qed.

Lemma present_images_trim (l : list slot) :
  present_images (trim_trailing_nulls l) = present_images l.
Proof.
  unfold present_images.
  induction l as [|c l IH] using rev_ind; [reflexivity|].
  destruct c as [v|].
  - now rewrite trim_snoc_image.
  - rewrite trim_snoc_null, IH, omap_app. simpl. now rewrite app_nil_r.
Qed.

Lemma present_images_ensure_length (maxIndex : nat) (l : list slot) :
  present_images (ensure_length maxIndex l) = present_images l.
Proof.
  unfold present_images. rewrite ensure_length_replicate, omap_app.
  assert (E : omap id (replicate (S maxIndex - length l) (@None string)) = []).
  { induction (S maxIndex - length l) as [|n IH]; [reflexivity|exact IH]. }
  rewrite E. apply app_nil_r.
Qed.

(** X22. A swap never loses, duplicates or invents a photo: the images
    present after it are those present before, rearranged.  It does not
    matter which of the two slots was dragged onto the other. *)
Theorem swap_rearranges_photos (i j : nat) (l : list slot) :
  Permutation (present_images (swap_update i j l)) (present_images l)
  /\ swap_update i j l = swap_update j i l.
Proof.
  split.
  - unfold swap_update. rewrite present_images_trim.
    rewrite <- (present_images_ensure_length (Nat.max i j) l).
    pose proof (ensure_length_exits (Nat.max i j) l) as Hlen.
    set (u := ensure_length (Nat.max i j) l) in *.
    unfold present_images. apply omap_Permutation.
    apply exchange_perm; apply js_get_lookup; lia.
  - apply trimmed_ext; try apply swap_ends_present.
    intros k. rewrite !js_get_swap.
    repeat case_decide; subst; congruence.
Qed.

(** ** The header count *)

Lemma filter_truthy_not_null (l : list slot) :
  List.filter truthy (List.filter not_null l) = List.filter truthy l.
Proof.
  induction l as [|[v|] l IH]; simpl; [reflexivity| |exact IH].
  destruct (truthy (Some v)); now rewrite IH.
Qed.

(** X23. A batch upload never loses a counted photo: the count shown in
    the header afterwards is the count before plus the number of uploaded
    photos whose reference is not the empty string, and the preview button
    is enabled as soon as the batch is not empty. *)
Theorem header_count_after_batch (newPhotos : list image) (prev : list slot) :
  collectedCount (batch_update newPhotos prev)
  = collectedCount prev + collectedCount (map Some newPhotos)
  /\ (newPhotos <> [] -> hasPhotos (batch_update newPhotos prev) = true).
Proof.
  unfold collectedCount, batch_update. split.
  - now rewrite List.filter_app, length_app, filter_truthy_not_null.
  - intros Hne. unfold hasPhotos. rewrite existsb_app.
    destruct newPhotos as [|photo photos]; [congruence|].
    simpl. apply orb_true_r.
Qed.

Lemma header_count_after_batch_witness :
  collectedCount (batch_update [imgC] gapped) = 3
  /\ hasPhotos (batch_update [imgC] gapped) = true.
Proof.
  destruct (header_count_after_batch [imgC] gapped) as [Hcount Hhas].
  split; [exact Hcount|]. apply Hhas. discriminate.
Defined.

(** ** Sharing *)

(** X24. Sharing a page never throws and always delivers the image
    once: either the share sheet completes and nothing is downloaded, or
    the page is downloaded exactly once under its own ordinal, as the last
    thing done.  The notice that sharing failed is shown only when
    something was thrown, not when sharing is merely unsupported. *)
Theorem share_delivers_once (sh : share_host) (imgSrc : image) (index : nat) :
  let log := snd (handleShare sh imgSrc index) in
  fst (handleShare sh imgSrc index) = Returned tt
  /\ (log = [ShareSheet (index + 1)]
      \/ (length (List.filter is_download log) = 1
          /\ last log = Some (DownloadClick imgSrc (index + 1))))
  /\ (if is_thrown (fst (share_attempt sh imgSrc index))
      then In ShareAlert log
      else ~ In ShareAlert log).
Proof.
  unfold handleShare, share_attempt.
  destruct (fetch_blob sh imgSrc) as [file|e]; simpl.
  - destruct (share_supported sh); simpl.
    + destruct (native_share sh file) as [[]|e]; simpl.
      * split; [reflexivity|]. split; [now left|].
        intros [H|[]]. discriminate.
      * split; [reflexivity|]. split; [right; now split|]. auto.
    + split; [reflexivity|]. split; [right; now split|].
      intros [H|[]]. discriminate.
  - split; [reflexivity|]. split; [right; now split|]. auto.
Qed.

(** ** Timer identifiers *)

Lemma fresh_snoc (n delay : nat) (cb : callback) (l : list timer) :
  forallb (fun t => timer_id t <? n) l = true ->
  forallb (fun t => timer_id t <? S n) (l ++ [mkTimer n delay cb]) = true.
Proof.
  intros H. rewrite forallb_app, (forallb_fresh_succ n l H). simpl.
  destruct (Nat.ltb_spec n (S n)); [reflexivity|lia].
Qed.

(** The hypothesis [fresh_timers] of the statements above holds in every
    state the controller reaches: no event makes a pending timer share
    its identifier with a later one. *)
Lemma step_fresh_timers (h : host) (ev : event) (s : App) :
  fresh_timers s = true -> fresh_timers (exec (step h ev) s) = true.
Proof.
  unfold fresh_timers. intros Hfresh.
  pose proof (fun g => forallb_filter_keeps
                         (fun t => timer_id t <? nextTimerId s) g (timers s)
                         Hfresh) as Hfilter.
  destruct ev as [[idx|] cx cy|[idx|] cx cy|cx cy|cx cy|cx cy|cx cy|id|cx cy];
    unfold_handlers; simpl;
    repeat (match goal with
            | |- context [if ?b then _ else _] => destruct b
            | |- context [match ?o with Some _ => _ | None => _ end] =>
                destruct o
            | |- context [match ?c with LongPress _ _ _ _ => _ | _ => _ end] =>
                destruct c
            end; simpl);
    auto using fresh_snoc.
Qed.

Lemma run_fresh_timers (h : host) (evs : list event) :
  forall s, fresh_timers s = true -> fresh_timers (exec (run h evs) s) = true.
Proof.
  induction evs as [|ev evs IH]; intros s Hfresh; [exact Hfresh|].
  rewrite run_cons. apply IH. now apply step_fresh_timers.
Qed.
